(** * cindex: the indexing driver of codesearch (cmd/cindex/cindex.go)

    A shallow embedding of [main] and [openEncoded].  The program is a
    sequence of effects on the outside world (the log, the index files,
    the file handles, the index builder); the embedding computes that
    sequence as a trace of [event]s, in program order, so that a crash is
    a prefix of the trace and the state of the index files after any
    prefix is obtained by replaying it ([run_events]).

    What the program reads from the outside world (the file tree, the
    results of [filepath.Abs], [os.Readlink], [htmlindex.Get],
    [index.File]) is collected in the record [Env]. *)

From Stdlib Require Import ZArith Ascii.
From Stdlib.Strings Require Byte.
From stdpp Require Import base strings list gmap sorting.

Local Open Scope Z_scope.

Abbreviation byte := Byte.byte.

(** ** Byte strings and their order *)

(** Go compares strings byte by byte; [sort.Strings] sorts with [<]. *)
Fixpoint str_ltb (s t : string) : bool :=
  match s, t with
  | _, EmptyString => false
  | EmptyString, String _ _ => true
  | String a s', String b t' =>
      (nat_of_ascii a <? nat_of_ascii b)%nat
      || ((nat_of_ascii a =? nat_of_ascii b)%nat && str_ltb s' t')
  end.

(** [str_le s t]: [t] is not before [s]; a slice [x] is sorted for
    [sort.Strings] when no later element is less than an earlier one. *)
Definition str_le (s t : string) : Prop := str_ltb t s = false.

Global Instance str_le_dec s t : Decision (str_le s t).
Proof. unfold str_le. apply _. Defined.

(** [sort.Strings]: the library sorts in place with an unstable
    comparison sort; strings that compare equal are equal, so the result
    is the only sorted arrangement of the slice (see
    [sort_Strings_unique]) and any sorting algorithm computes it. *)
Definition sort_Strings (l : list string) : list string :=
  merge_sort str_le l.

(** ** Results of fallible calls *)

Inductive result (A : Type) : Type :=
| Ok (a : A)
| Error (err : string).
Arguments Ok {A} a.
Arguments Error {A} err.

(** ** Text encodings (golang.org/x/text/encoding) *)

(** An [encoding.Encoding] as the program uses it: a decoder that either
    consumes a whole byte sequence and yields the decoded text, or stops
    with an error. *)
Record Encoding : Type := {
  enc_name : string;
  decode : list byte -> option (list byte)
}.

Definition validates (e : Encoding) (data : list byte) : bool :=
  match decode e data with Some _ => true | None => false end.

(** The stream handed to the index: the handle itself, or the handle
    behind the decoder of the encoding found. *)
Inductive reader : Type :=
| RawReader (data : list byte)
| DecodedReader (found : Encoding) (data : list byte).

(** What reading the stream to its end delivers. *)
Definition reader_content (r : reader) : option (list byte) :=
  match r with
  | RawReader data => Some data
  | DecodedReader found data => decode found data
  end.

(** ** The file tree *)

(** A file as [os.Open] and the handle's [Seek] see it: whether it can be
    opened, its bytes, and the outcome of the k-th rewind (counted from
    0) on a handle of it. *)
Record file : Type := {
  f_open_err : option string;
  f_data : list byte;
  f_seek_err : nat -> option string
}.

(** os.FileMode bits (io/fs). *)
Definition ModeDir : Z := Z.shiftl 1 31.
Definition ModeSymlink : Z := Z.shiftl 1 27.
Definition ModeDevice : Z := Z.shiftl 1 26.
Definition ModeNamedPipe : Z := Z.shiftl 1 25.
Definition ModeSocket : Z := Z.shiftl 1 24.
Definition ModeCharDevice : Z := Z.shiftl 1 21.
Definition ModeIrregular : Z := Z.shiftl 1 19.
Definition ModeType : Z :=
  Z.lor ModeDir (Z.lor ModeSymlink (Z.lor ModeNamedPipe (Z.lor ModeSocket
    (Z.lor ModeDevice (Z.lor ModeCharDevice ModeIrregular))))).

(** An entry of the tree: its mode (what [Lstat] reports), what opening
    it gives, and, for a directory, the outcome of reading it: an error
    or the sorted names, each with the outcome of its [Lstat]. *)
Unset Elimination Schemes.
Inductive fnode : Type :=
| Node (mode : Z) (f : file) (readdir_err : option string)
       (entries : list (string * result fnode)).
Set Elimination Schemes.

Definition Mode (n : fnode) : Z := let 'Node m _ _ _ := n in m.
Definition n_file (n : fnode) : file := let 'Node _ f _ _ := n in f.
Definition IsDir (n : fnode) : bool := negb (Z.land (Mode n) ModeDir =? 0).

(** ** The outside world read by the program *)

Record Env : Type := {
  index_File : string;                        (* index.File() *)
  filepath_Abs : string -> result string;
  os_Readlink : string -> result string;
  htmlindex_Get : string -> result Encoding;
  os_Lstat : string -> result fnode           (* Lstat of a walk root *)
}.

(** ** Effects *)

Inductive logmsg : Type :=
| LogPathErr (path err : string)      (* log.Printf("%s: %s", path, err) *)
| LogEncErr (enc err : string)        (* log.Printf("%q: %+v", enc, err) *)
| LogIndex (arg : string)             (* log.Printf("index %s", arg) *)
| LogFlush                            (* log.Printf("flush index") *)
| LogMerge (master file : string)     (* log.Printf("merge %s %s", ...) *)
| LogDone.                            (* log.Printf("done") *)

Inductive event : Type :=
| EPrint (line : string)              (* fmt.Printf("%s\n", arg) *)
| ELog (m : logmsg)
| ERemove (name : string)             (* os.Remove(name) *)
| ECreate (name : string)             (* index.Create(name) *)
| EAddPaths (paths : list string)     (* ix.AddPaths(paths) *)
| EOpen (path : string)               (* os.Open(path) returned a handle *)
| EClose (path : string)              (* the handle of path is closed *)
| EAdd (path : string) (r : reader)   (* ix.Add(path, r) *)
| EFlush (name : string)              (* ix.Flush() of the index on name *)
| EMerge (dst src1 src2 : string)     (* index.Merge(dst, src1, src2) *)
| ERename (oldpath newpath : string). (* os.Rename(oldpath, newpath) *)

(** A computation yields a value and the events it performed. *)
Definition Eff (A : Type) : Type := (A * list event)%type.

Definition ret {A} (a : A) : Eff A := (a, []).
Definition emit (e : event) : Eff unit := (tt, [e]).
Definition bind {A B} (m : Eff A) (k : A -> Eff B) : Eff B :=
  let r := k (fst m) in (fst r, snd m ++ snd r).

Notation "'do' x <- m ;; k" := (bind m (fun x => k))
  (at level 10, x name, m at level 99, k at level 200,
   format "'[v' 'do'  x  <-  m  ;; '/' k ']'").
Notation "'run' m ;; k" := (bind m (fun _ => k))
  (at level 10, m at level 99, k at level 200,
   format "'[v' 'run'  m  ;; '/' k ']'").

(** ** PathCanonicalizer (main, lines 103-121) *)

(** One turn of the loop over [args]: the new value of [args[i]]. *)
Definition resolve_arg (E : Env) (arg : string) : Eff string :=
  match filepath_Abs E arg with
  | Error err => run emit (ELog (LogPathErr arg err)) ;; ret ""
  | Ok a =>
      match os_Readlink E a with
      | Ok s => if decide (s = "") then ret a else ret s
      | Error _ => ret a
      end
  end.

Fixpoint resolve_args (E : Env) (args : list string) : Eff (list string) :=
  match args with
  | [] => ret []
  | arg :: rest =>
      do a <- resolve_arg E arg ;;
      do l <- resolve_args E rest ;;
      ret (a :: l)
  end.

(** [for len(args) > 0 && args[0] == "" { args = args[1:] }] *)
Fixpoint drop_empty (args : list string) : list string :=
  match args with
  | a :: rest => if decide (a = "") then drop_empty rest else args
  | [] => []
  end.

Definition canonicalize (E : Env) (args : list string) : Eff (list string) :=
  do l <- resolve_args E args ;;
  ret (drop_empty (sort_Strings l)).

(** ** EncodingResolver (main, lines 132-143) *)

(** [strings.Split(s, ",")] for a one-byte separator. *)
Fixpoint strings_Split (sep : ascii) (s : string) : list string :=
  match s with
  | EmptyString => [""]
  | String c s' =>
      if decide (c = sep) then "" :: strings_Split sep s'
      else match strings_Split sep s' with
           | h :: t => String c h :: t
           | [] => [String c ""]
           end
  end.

(** The white space of [strings.TrimSpace] within ASCII: tab, line feed,
    vertical tab, form feed, carriage return, space.  [strings_TrimSpace]
    below is the library function on strings whose bytes are all below
    128.  On a string with a byte from 128 up the library decodes UTF-8
    and also trims the Unicode white space outside ASCII (U+0085, U+00A0,
    U+2028, ...): that part is not modelled, and a statement that depends
    on the outcome of the trimming is made for strings within ASCII. *)
Definition is_space (c : ascii) : bool :=
  let n := nat_of_ascii c in
  ((9 <=? n)%nat && (n <=? 13)%nat) || (n =? 32)%nat.

Fixpoint trim_left (s : string) : string :=
  match s with
  | String c s' => if is_space c then trim_left s' else s
  | EmptyString => ""
  end.

Fixpoint trim_right (s : string) : string :=
  match s with
  | String c s' =>
      match trim_right s' with
      | EmptyString => if is_space c then "" else String c ""
      | r => String c r
      end
  | EmptyString => ""
  end.

Definition strings_TrimSpace (s : string) : string := trim_right (trim_left s).

(** The loop over the names; [None] is the [return] of line 140. *)
Fixpoint get_encodings (E : Env) (names : list string) (encodings : list Encoding)
  : Eff (option (list Encoding)) :=
  match names with
  | [] => ret (Some encodings)
  | enc :: rest =>
      let enc := strings_TrimSpace enc in
      if decide (enc = "") then get_encodings E rest encodings
      else match htmlindex_Get E enc with
           | Error err => run emit (ELog (LogEncErr enc err)) ;; ret None
           | Ok e => get_encodings E rest (encodings ++ [e])
           end
  end.

Definition resolve_encodings (E : Env) (encodingsFlag : string)
  : Eff (option (list Encoding)) :=
  get_encodings E (strings_Split "," encodingsFlag) [].

(** ** EncodingDetector: openEncoded (lines 188-210) *)

(** The loop over [encodings]; [k] counts the rewinds done on the handle. *)
Fixpoint probe (f : file) (encodings : list Encoding) (k : nat)
    (found : option Encoding) : result (option Encoding) :=
  match encodings with
  | [] => Ok found
  | enc :: rest =>
      let found := if validates enc (f_data f) then Some enc else found in
      match f_seek_err f k with
      | Some err => Error err
      | None => probe f rest (S k) found
      end
  end.

(** [os.Open(path)] is served by the file [f] found at [path]. *)
Definition openEncoded (path : string) (f : file) (encodings : list Encoding)
  : Eff (result reader) :=
  match f_open_err f with
  | Some err => ret (Error err)
  | None =>
      run emit (EOpen path) ;;
      match probe f encodings 0 None with
      | Error err => ret (Error err)
      | Ok None => ret (Ok (RawReader (f_data f)))
      | Ok (Some found) => ret (Ok (DecodedReader found (f_data f)))
      end
  end.

(** ** Walker (main, lines 148-174, over path/filepath.Walk) *)

(** [filepath.Split]: the directory (up to and with the last slash) and
    the file name after it. *)
Fixpoint filepath_Split (path : string) : string * string :=
  match path with
  | EmptyString => ("", "")
  | String c rest =>
      let '(dir, elem) := filepath_Split rest in
      match dir with
      | EmptyString => if decide (c = "/"%char) then ("/", elem) else ("", String c elem)
      | _ => (String c dir, elem)
      end
  end.

Fixpoint last_byte (s : string) : option ascii :=
  match s with
  | EmptyString => None
  | String c EmptyString => Some c
  | String _ s' => last_byte s'
  end.

(** The test of line 153, for a non-empty [elem]:
    [elem[0] == '.' || elem[0] == '#' || elem[0] == '~' || elem[len(elem)-1] == '~'] *)
Definition skip_rule (elem : string) : bool :=
  match elem with
  | EmptyString => false
  | String c _ =>
      bool_decide (c = "."%char) || bool_decide (c = "#"%char)
      || bool_decide (c = "~"%char) || bool_decide (last_byte elem = Some "~"%char)
  end.

(** What the callback returns to [filepath.Walk]: [nil], [SkipDir], the
    error of line 167 (path and cause), or no return at all: a run-time
    panic that unwinds the program. *)
Inductive walkret : Type :=
| WNil
| WSkipDir
| WErr (path err : string)
| WPanic.

(** The callback of line 150.  [info] is [None] for a nil [os.FileInfo];
    [os.Open(path)] in [openEncoded] is served by the entry visited. *)
Definition walkFn (encodings : list Encoding) (path : string)
    (info : option fnode) (err : option string) : Eff walkret :=
  let elem := snd (filepath_Split path) in
  if negb (bool_decide (elem = "")) && skip_rule elem then
    match info with
    | None => ret WPanic                      (* info.IsDir() on nil *)
    | Some n => if IsDir n then ret WSkipDir else ret WNil
    end
  else
    match err with
    | Some e => run emit (ELog (LogPathErr path e)) ;; ret WNil
    | None =>
        match info with
        | Some n =>
            if Z.land (Mode n) ModeType =? 0 then
              do r <- openEncoded path (n_file n) encodings ;;
              match r with
              | Error e => ret (WErr path e)
              | Ok rd =>
                  run emit (EAdd path rd) ;;
                  run emit (EClose path) ;;
                  ret WNil
              end
            else ret WNil
        | None => ret WNil
        end
    end.

(** [strings.Join(pieces, sep)] for a one-byte separator. *)
Fixpoint strings_Join (sep : ascii) (pieces : list string) : string :=
  match pieces with
  | [] => ""
  | [s] => s
  | s :: rest => s +:+ String sep (strings_Join sep rest)
  end.

(** One turn of the loop of [filepath.Clean] (Unix), which reads [path]
    element by element, an element being what stands between two
    slashes.  [out] holds the elements written so far, the last one
    first.  An empty element and [.] are dropped.  [..] removes the
    element written last when there is one to remove ([out.w > dotdot]:
    in a rooted path any element, in a relative path one that is not
    itself a leading [..]); otherwise it is dropped in a rooted path and
    written in a relative one.  Any other element is written. *)
Definition clean_elem (rooted : bool) (out : list string) (elem : string)
  : list string :=
  if decide (elem = "") then out
  else if decide (elem = ".") then out
  else if decide (elem = "..") then
    match out with
    | top :: rest =>
        if rooted || negb (bool_decide (top = "..")) then rest
        else ".." :: out
    | [] => if rooted then out else ".." :: out
    end
  else elem :: out.

(** [filepath.Clean(path)]: the elements kept, with one slash between
    them, after the leading slash of a rooted path; [.] when nothing is
    left of a relative path. *)
Definition filepath_Clean (path : string) : string :=
  match path with
  | EmptyString => "."
  | String c _ =>
      let rooted := bool_decide (c = "/"%char) in
      let out := foldl (clean_elem rooted) [] (strings_Split "/" path) in
      let s := strings_Join "/" (reverse out) in
      if rooted then "/" +:+ s
      else if decide (s = "") then "." else s
  end.

(** [filepath.Join(path, name)]: empty elements are ignored, the others
    are joined with a slash and the result is cleaned. *)
Definition filepath_Join (path name : string) : string :=
  if decide (path = "") then
    if decide (name = "") then "" else filepath_Clean name
  else filepath_Clean (path +:+ "/" +:+ name).

(** The loop of [walk] over the names of a directory; [walk_child] is
    the recursive call. *)
Fixpoint walk_entries (walk_child : string -> fnode -> Eff walkret)
    (encodings : list Encoding) (path : string)
    (entries : list (string * result fnode)) : Eff walkret :=
  match entries with
  | [] => ret WNil
  | (name, st) :: rest =>
      let filename := filepath_Join path name in
      match st with
      | Error err =>
          do r <- walkFn encodings filename None (Some err) ;;
          match r with
          | WNil | WSkipDir => walk_entries walk_child encodings path rest
          | _ => ret r
          end
      | Ok fileInfo =>
          do r <- walk_child filename fileInfo ;;
          match r with
          | WNil => walk_entries walk_child encodings path rest
          | WSkipDir =>
              if IsDir fileInfo then walk_entries walk_child encodings path rest
              else ret r
          | _ => ret r
          end
      end
  end.

(** [walk] of path/filepath: a non-directory is handed to the callback;
    a directory is read, handed to the callback with the outcome of the
    read, and descended into when both went well. *)
Fixpoint walk (encodings : list Encoding) (path : string) (info : fnode)
  : Eff walkret :=
  match info with
  | Node _ _ readdir_err entries =>
      if negb (IsDir info) then walkFn encodings path (Some info) None
      else
        do err1 <- walkFn encodings path (Some info) readdir_err ;;
        match readdir_err, err1 with
        | None, WNil =>
            walk_entries (fun p c => walk encodings p c) encodings path entries
        | _, _ => ret err1
        end
  end.

(** [filepath.Walk(root, fn)] *)
Definition filepath_Walk (E : Env) (encodings : list Encoding) (root : string)
  : Eff walkret :=
  do r <- match os_Lstat E root with
          | Error err => walkFn encodings root None (Some err)
          | Ok info => walk encodings root info
          end ;;
  ret (match r with WSkipDir => WNil | _ => r end).

(** The loop of line 148; the value [filepath.Walk] returns is dropped.
    The result tells whether the loop ended in a panic. *)
Fixpoint walk_roots (E : Env) (encodings : list Encoding) (args : list string)
  : Eff bool :=
  match args with
  | [] => ret false
  | arg :: rest =>
      run emit (ELog (LogIndex arg)) ;;
      do r <- filepath_Walk E encodings arg ;;
      match r with
      | WPanic => ret true
      | _ => walk_roots E encodings rest
      end
  end.

(** ** The index files *)

(** An index as the program and the query tool see it: the recorded
    roots and the content indexed under each file path. *)
Record index_file : Type := {
  ix_paths : list string;
  ix_files : list (string * list byte)
}.

Definition empty_index : index_file := {| ix_paths := []; ix_files := [] |}.

(** A file at an index location: created but not yet written, or a
    complete index. *)
Inductive file_state : Type :=
| Truncated
| Written (ix : index_file).

(** Modelled from the spec: [index.Merge(dst, src1, src2)] of the index
    package, which is not part of the source given.  Entries of a file
    path present in the second (newer) index supersede those of the first;
    paths absent from the second keep their old entries; the roots of
    both are recorded. *)
Definition merge_index (old new : index_file) : index_file :=
  {| ix_paths := sort_Strings (remove_dups (ix_paths old ++ ix_paths new));
     ix_files := ix_files new
                 ++ filter (fun pf => pf.1 ∉ (ix_files new).*1) (ix_files old) |}.

(** The index files on disk and the content queued in the builder. *)
Record world : Type := {
  w_disk : gmap string file_state;
  w_pending : index_file
}.

(** Modelled from the spec: the effect of the operations of the index
    package ([index.Create], [AddPaths], [Add], [Flush], [index.Merge]),
    which is not part of the source given, and of [os.Remove] and
    [os.Rename].  [Create] leaves a new, empty file at its name and an
    empty builder; [AddPaths] and [Add] queue roots and content in the
    builder; [Flush] writes what is queued to the builder's file; [Merge]
    writes the merged index to [dst] and nothing else; printing, logging,
    opening and closing source files leave the index files alone.  What
    the builder does with a stream whose decoder fails is not specified:
    nothing is queued for it here (the stream [openEncoded] returns has
    been decoded to its end once already). *)
Definition run_event (w : world) (e : event) : world :=
  match e with
  | ERemove name => {| w_disk := delete name (w_disk w); w_pending := w_pending w |}
  | ECreate name =>
      {| w_disk := <[name := Truncated]> (w_disk w); w_pending := empty_index |}
  | EAddPaths paths =>
      {| w_disk := w_disk w;
         w_pending := {| ix_paths := ix_paths (w_pending w) ++ paths;
                         ix_files := ix_files (w_pending w) |} |}
  | EAdd path r =>
      match reader_content r with
      | Some content =>
          {| w_disk := w_disk w;
             w_pending := {| ix_paths := ix_paths (w_pending w);
                             ix_files := ix_files (w_pending w) ++ [(path, content)] |} |}
      | None => w
      end
  | EFlush name =>
      {| w_disk := <[name := Written (w_pending w)]> (w_disk w);
         w_pending := w_pending w |}
  | EMerge dst src1 src2 =>
      match w_disk w !! src1, w_disk w !! src2 with
      | Some (Written old), Some (Written new) =>
          {| w_disk := <[dst := Written (merge_index old new)]> (w_disk w);
             w_pending := w_pending w |}
      | _, _ => w
      end
  | ERename oldpath newpath =>
      match w_disk w !! oldpath with
      | Some x =>
          {| w_disk := <[newpath := x]> (delete oldpath (w_disk w));
             w_pending := w_pending w |}
      | None => w
      end
  | EPrint _ | ELog _ | EOpen _ | EClose _ => w
  end.

Definition run_events (w : world) (evs : list event) : world :=
  foldl run_event w evs.

Definition start (disk : gmap string file_state) : world :=
  {| w_disk := disk; w_pending := empty_index |}.

(** ** main (lines 69-186) *)

Record Flags : Type := {
  listFlag : bool;
  resetFlag : bool;
  verboseFlag : bool;
  encodingsFlag : string
}.

(** How the process ends: [main] returns, [log.Fatal] stops it (in the
    index package, or at line 85), or a panic unwinds it. *)
Inductive exit : Type :=
| Returned
| Fatal
| Panicked.

(** Modelled from the spec: [index.Open(name).Paths()] of the index
    package, which is not part of the source given: the roots recorded in
    the index at [name]; without a complete index there, the package
    stops the process. *)
Definition index_Paths (disk : gmap string file_state) (name : string)
  : option (list string) :=
  match disk !! name with
  | Some (Written ix) => Some (ix_paths ix)
  | _ => None
  end.

Fixpoint print_paths (paths : list string) : Eff unit :=
  match paths with
  | [] => ret tt
  | arg :: rest => run emit (EPrint arg) ;; print_paths rest
  end.

(** Lines 178-183. *)
Definition publish (master file : string) : Eff unit :=
  run emit (ELog (LogMerge master file)) ;;
  run emit (EMerge (file +:+ "~") master file) ;;
  run emit (ERemove file) ;;
  emit (ERename (file +:+ "~") master).

(** Lines 123-185, once [args] holds the paths to index.  (The
    assignment to [ix.Verbose], which only turns on the builder's own
    progress messages, is left out.) *)
Definition build (E : Env) (fl : Flags) (disk : gmap string file_state)
    (args : list string) : Eff exit :=
  do args <- canonicalize E args ;;
  let master := index_File E in
  let resetFlag :=
    match disk !! master with          (* os.Stat(master) *)
    | None => true
    | Some _ => resetFlag fl
    end in
  let file := if resetFlag then master else master +:+ "~" in
  do encodings <- resolve_encodings E (encodingsFlag fl) ;;
  match encodings with
  | None => ret Returned
  | Some encodings =>
      run emit (ECreate file) ;;
      run emit (EAddPaths args) ;;
      do panicked <- walk_roots E encodings args ;;
      if panicked then ret Panicked
      else
        run emit (ELog LogFlush) ;;
        run emit (EFlush file) ;;
        run (if resetFlag then ret tt else publish master file) ;;
        run emit (ELog LogDone) ;;
        ret Returned
  end.

(** [disk] holds the index files when the program starts.  [main] is
    the program run without -cpuprofile, the flag's default: lines 82-90
    then do nothing, and with -list unset what follows the first test is
    lines 92-185.  With -cpuprofile lines 82-90, after the -list branch
    and before line 92, create or truncate the file named by the flag and
    end the run through [log.Fatal] when that fails: [cindex] below adds
    them. *)
Definition main (E : Env) (fl : Flags) (args : list string)
    (disk : gmap string file_state) : Eff exit :=
  if listFlag fl then
    match index_Paths disk (index_File E) with
    | None => ret Fatal
    | Some paths => run print_paths paths ;; ret Returned
    end
  else if resetFlag fl && bool_decide (args = []) then
    run emit (ERemove (index_File E)) ;; ret Returned
  else if bool_decide (args = []) then
    match index_Paths disk (index_File E) with
    | None => ret Fatal
    | Some paths => build E fl disk paths
    end
  else build E fl disk args.

(** ** main with -cpuprofile (lines 82-90) *)

(** The flag -cpuprofile, and what [os.Create] answers for a name: [None]
    when it created or truncated the file, the error otherwise. *)
Record Profiling : Type := {
  cpuProfile : string;
  os_Create : string -> option string
}.

(** The effects of a whole run: those of lines 82-90 and of the two calls
    they defer, and those of the rest of [main]. *)
Inductive pevent : Type :=
| PCreate (name : string)     (* os.Create, line 83: an empty file at name *)
| PFatal (err : string)       (* log.Fatal(err), line 85 *)
| PStartCPUProfile            (* pprof.StartCPUProfile(f) *)
| PStopCPUProfile             (* deferred: the profile is written to f *)
| PClose                      (* deferred: f.Close() *)
| PMain (e : event).

(** The whole of [main].  -list is served first (lines 74-80).  Then,
    with -cpuprofile, the profile file is created; a failure ends the run
    in [log.Fatal], which logs the error and exits.  Otherwise the rest of
    [main] runs (lines 92-185), on a disk that now holds the new, empty
    file, and the two deferred calls run when [main] returns or panics,
    not when the index package exits the process. *)
Definition cindex (E : Env) (P : Profiling) (fl : Flags) (args : list string)
    (disk : gmap string file_state) : exit * list pevent :=
  if listFlag fl || bool_decide (cpuProfile P = "") then
    let m := main E fl args disk in
    (fst m, PMain <$> snd m)
  else
    match os_Create P (cpuProfile P) with
    | Some err => (Fatal, [PFatal err])
    | None =>
        let m := main E fl args (<[cpuProfile P := Truncated]> disk) in
        (fst m,
         PCreate (cpuProfile P) :: PStartCPUProfile :: (PMain <$> snd m)
           ++ match fst m with
              | Fatal => []
              | _ => [PStopCPUProfile; PClose]
              end)
    end.

(** The effect of a whole run on the files of the disk: [os.Create]
    leaves an empty file at its name; the profile written to it at the end
    goes through the handle and makes no index of it. *)
Definition run_pevent (w : world) (e : pevent) : world :=
  match e with
  | PCreate name =>
      {| w_disk := <[name := Truncated]> (w_disk w); w_pending := w_pending w |}
  | PMain e => run_event w e
  | _ => w
  end.

Definition run_pevents (w : world) (evs : list pevent) : world :=
  foldl run_pevent w evs.

(** * Notions used in the statements *)

(** The candidate the loop ends with: the last one that validates. *)
Definition last_match (encodings : list Encoding) (data : list byte)
  : option Encoding :=
  last (filter (λ e, validates e data = true) encodings).

(** The test the callback makes on the base name of [path]. *)
Definition skipped (path : string) : bool :=
  let elem := snd (filepath_Split path) in
  negb (bool_decide (elem = "")) && skip_rule elem.

(** [info.Mode()&os.ModeType == 0]: a plain file. *)
Definition regular (n : fnode) : bool := Z.land (Mode n) ModeType =? 0.

(** [visible path info q]: the entry at [q] is reached from the entry
    [info] at [path] through entries none of which, [path] and [q]
    included, matches the skip rule. *)
Inductive visible : string -> fnode -> string -> Prop :=
| visible_here path info :
    skipped path = false -> visible path info path
| visible_below path mode f readdir_err entries name child q :
    skipped path = false ->
    (name, Ok child) ∈ entries ->
    visible (filepath_Join path name) child q ->
    visible path (Node mode f readdir_err entries) q.

(** A directory entry name has no slash in it; the base name the
    callback then looks at is the name itself. *)
Fixpoint has_slash (s : string) : bool :=
  match s with
  | EmptyString => false
  | String c s' => bool_decide (c = "/"%char) || has_slash s'
  end.

(** The events of a walk: log lines, and the open, add and close of the
    files handed to the index. *)
Definition walk_event (e : event) : Prop :=
  match e with
  | ELog _ | EOpen _ | EClose _ | EAdd _ _ => True
  | _ => False
  end.

(** Log lines. *)
Definition is_log (e : event) : Prop :=
  match e with ELog _ => True | _ => False end.

(** The names the loop of line 133 examines. *)
Definition encoding_names (encodingsFlag : string) : list string :=
  filter (λ enc, enc ≠ "") (strings_TrimSpace <$> strings_Split "," encodingsFlag).

(** An unrecognized name was supplied. *)
Definition unrecognized (E : Env) (encodingsFlag : string) : Prop :=
  exists enc err, enc ∈ encoding_names encodingsFlag /\ htmlindex_Get E enc = Error err.

(** The value of [*resetFlag] after line 127: -reset was given, or
    there is no published index. *)
Definition reset_mode (E : Env) (fl : Flags) (disk : gmap string file_state) : bool :=
  match disk !! index_File E with
  | None => true
  | Some _ => resetFlag fl
  end.

(** The file the builder writes (lines 128-131): the published index
    itself, or the staging file next to it. *)
Definition target_file (E : Env) (fl : Flags) (disk : gmap string file_state) : string :=
  if reset_mode E fl disk then index_File E else index_File E +:+ "~".

(** The events of lines 178-183. *)
Definition publish_events (master file : string) : list event :=
  [ELog (LogMerge master file); EMerge (file +:+ "~") master file;
   ERemove file; ERename (file +:+ "~") master].

(** The names whose file an event can create, change or delete. *)
Definition targets (e : event) : list string :=
  match e with
  | ERemove name | ECreate name | EFlush name => [name]
  | EMerge dst _ _ => [dst]
  | ERename oldpath newpath => [oldpath; newpath]
  | _ => []
  end.

(** The same for the events of a whole run. *)
Definition ptargets (e : pevent) : list string :=
  match e with
  | PCreate name => [name]
  | PMain e => targets e
  | _ => []
  end.

(** The paths to index: the arguments, or without arguments the roots
    recorded in the published index (lines 96-101). *)
Definition roots_of (E : Env) (args : list string) (disk : gmap string file_state)
  : option (list string) :=
  if bool_decide (args = []) then index_Paths disk (index_File E) else Some args.

(** What happens before the flush of an incremental run: log lines, the
    walk, the creation of the staging file and the recording of roots. *)
Definition staging_event (staging : string) (e : event) : Prop :=
  walk_event e \/ e = ECreate staging \/ exists paths, e = EAddPaths paths.

(** Lines printed by -list. *)
Definition is_print (e : event) : Prop :=
  match e with EPrint _ => True | _ => False end.

(** The end of an incremental run, from the flush on. *)
Definition flush_and_publish (master : string) : list event :=
  [ELog LogFlush; EFlush (master +:+ "~")]
  ++ publish_events master (master +:+ "~") ++ [ELog LogDone].

(** The events of a direct run: a walk, and the creation, the recording
    of roots and the flush of the builder on the published path. *)
Definition direct_event (master : string) (e : event) : Prop :=
  walk_event e \/ e = ECreate master \/ (exists paths, e = EAddPaths paths)
  \/ e = EFlush master.

(** An event that leaves every file but the published index alone and
    is neither a merge nor a rename. *)
Definition in_place (master : string) (e : event) : Prop :=
  (forall name, name ∈ targets e -> name = master)
  /\ (forall dst src1 src2, e ≠ EMerge dst src1 src2)
  /\ (forall oldpath newpath, e ≠ ERename oldpath newpath).

(** The handles a trace leaves open. *)
Fixpoint remove_first (p : string) (l : list string) : list string :=
  match l with
  | [] => []
  | q :: rest => if decide (p = q) then rest else q :: remove_first p rest
  end.

Definition open_handles (evs : list event) : list string :=
  foldl (fun handles e =>
           match e with
           | EOpen p => p :: handles
           | EClose p => remove_first p handles
           | _ => handles
           end) [] evs.

(** [reachable path info q n]: the entry [n] at [q] is reached from the
    entry [info] at [path] by descending through directories that could be
    read, none of the entries on the way, [path] and [q] included, matching
    the skip rule. *)
Inductive reachable : string -> fnode -> string -> fnode -> Prop :=
| reachable_here path info :
    skipped path = false -> reachable path info path info
| reachable_below path mode f entries name child q n :
    skipped path = false ->
    IsDir (Node mode f None entries) = true ->
    (name, Ok child) ∈ entries ->
    reachable (filepath_Join path name) child q n ->
    reachable path (Node mode f None entries) q n.

(** One step of [open_handles]. *)
Definition handle_step (handles : list string) (e : event) : list string :=
  match e with
  | EOpen p => p :: handles
  | EClose p => remove_first p handles
  | _ => handles
  end.

(** The events of a walk, more closely: its only log lines are the
    traversal diagnostics of line 161. *)
Definition file_event (e : event) : Prop :=
  match e with
  | ELog (LogPathErr _ _) | EOpen _ | EClose _ | EAdd _ _ => True
  | _ => False
  end.

(** The roots announced by the lines [index %s] of a trace, in order. *)
Definition index_lines (evs : list event) : list string :=
  omap (λ e, match e with ELog (LogIndex arg) => Some arg | _ => None end) evs.

(** What the loop of line 148 does for one root: the line [index %s],
    then the walk of the root by [filepath.Walk]. *)
Definition walk_one (E : Env) (encodings : list Encoding) (root : string)
  : list event :=
  ELog (LogIndex root) :: snd (filepath_Walk E encodings root).

(** The paths and contents a trace hands to the builder, in order. *)
Definition added (evs : list event) : list (string * list byte) :=
  omap (λ e, match e with
             | EAdd path r => (λ content, (path, content)) <$> reader_content r
             | _ => None
             end) evs.

(** The diagnostics of path resolution for [args], in order. *)
Definition resolve_failures (E : Env) (args : list string) : list event :=
  omap (λ arg, match filepath_Abs E arg with
               | Error err => Some (ELog (LogPathErr arg err))
               | Ok _ => None
               end) args.

Definition resolvable (E : Env) (arg : string) : Prop :=
  exists a, filepath_Abs E arg = Ok a.

Global Instance resolvable_dec E arg : Decision (resolvable E arg).
Proof.
  unfold resolvable. destruct (filepath_Abs E arg) as [a|err].
  - left. by exists a.
  - right. by intros [a Ha].
Defined.

Fixpoint has_byte (c : ascii) (s : string) : bool :=
  match s with
  | EmptyString => false
  | String a s' => bool_decide (a = c) || has_byte c s'
  end.

(** A string within ASCII: every byte is below 128 ([utf8.RuneSelf]),
    where [strings.TrimSpace] looks at single bytes only. *)
Fixpoint within_ascii (s : string) : bool :=
  match s with
  | EmptyString => true
  | String c s' => (nat_of_ascii c <? 128)%nat && within_ascii s'
  end.

Definition first_byte (s : string) : option ascii :=
  match s with
  | EmptyString => None
  | String c _ => Some c
  end.

Definition is_flush (e : event) : Prop :=
  match e with EFlush _ => True | _ => False end.

(** Events of the builder: its creation, the recording of roots, an add,
    the flush. *)
Definition builder_event (e : event) : Prop :=
  match e with
  | ECreate _ | EAddPaths _ | EAdd _ _ | EFlush _ => True
  | _ => False
  end.

(** A part of a walk leaves no handle open, or it ended with the error
    of line 167 for some file and left that file's handle open, and no
    other. *)
Definition leaks_at_most_one (m : Eff walkret) : Prop :=
  open_handles (snd m) = []
  \/ exists q err, fst m = WErr q err /\ open_handles (snd m) = [q].

(** * Inputs to run the statements on *)

(** An environment in which every path is absolute already and nothing
    is a symbolic link. *)
Definition plain_env : Env :=
  {| index_File := "/home/u/.csearchindex";
     filepath_Abs := fun p => Ok p;
     os_Readlink := fun _ => Error "invalid argument";
     htmlindex_Get := fun _ => Error "htmlindex: invalid encoding name";
     os_Lstat := fun _ => Error "no such file or directory" |}.

(** A working directory [/cwd] in which [A] is a link to [/cwd/B] and
    [B] a link to [/cwd/C]. *)
Definition chain_env : Env :=
  {| index_File := "/home/u/.csearchindex";
     filepath_Abs := fun p =>
       match p with
       | String "/" _ => Ok p
       | _ => Ok ("/cwd/" +:+ p)
       end;
     os_Readlink := fun p =>
       if decide (p = "/cwd/A") then Ok "/cwd/B"
       else if decide (p = "/cwd/B") then Ok "/cwd/C"
       else Error "invalid argument";
     htmlindex_Get := fun _ => Error "htmlindex: invalid encoding name";
     os_Lstat := fun _ => Error "no such file or directory" |}.

(** Two decoders to run the statements on: one that accepts only 7-bit
    bytes, one that accepts every byte sequence. *)
Definition seven_bit : Encoding :=
  {| enc_name := "us-ascii";
     decode := fun data =>
       if forallb (fun b => (Byte.to_N b <? 128)%N) data then Some data else None |}.

Definition eight_bit : Encoding :=
  {| enc_name := "x-user-defined"; decode := fun data => Some data |}.

Definition plain_file (data : list byte) : file :=
  {| f_open_err := None; f_data := data; f_seek_err := fun _ => None |}.

Definition dir_mode : Z := Z.lor ModeDir 493.

Definition reg_file (content : string) : fnode :=
  Node 420 (plain_file (String.list_byte_of_string content)) None [].

Definition directory (entries : list (string * result fnode)) : fnode :=
  Node dir_mode (plain_file []) None entries.

(** A source tree [/src] and a published index to run the statements on. *)
Definition sample_tree : fnode :=
  directory [(".hidden", Ok (directory [("b.txt", Ok (reg_file "skip me"))]));
             ("a.txt", Ok (reg_file "hello"));
             ("c~", Ok (reg_file "skip me too"))].

Definition sample_env : Env :=
  {| index_File := "/home/u/.csearchindex";
     filepath_Abs := fun p => Ok p;
     os_Readlink := fun _ => Error "invalid argument";
     htmlindex_Get := fun name =>
       if decide (name = "us-ascii") then Ok seven_bit
       else if decide (name = "x-user-defined") then Ok eight_bit
       else Error "htmlindex: invalid encoding name";
     os_Lstat := fun p =>
       if decide (p = "/src") then Ok sample_tree
       else Error "no such file or directory" |}.

Definition old_index : index_file :=
  {| ix_paths := ["/old"]; ix_files := [("/old/x", [Byte.x6f])] |}.

Definition sample_disk : gmap string file_state :=
  {[ "/home/u/.csearchindex" := Written old_index ]}.

(** -cpuprofile /tmp/prof, in a directory where the file can be created
    and in one where it cannot. *)
Definition profile_ok : Profiling :=
  {| cpuProfile := "/tmp/prof"; os_Create := fun _ => None |}.

Definition profile_denied : Profiling :=
  {| cpuProfile := "/tmp/prof"; os_Create := fun _ => Some "permission denied" |}.

Definition no_profile : Profiling :=
  {| cpuProfile := ""; os_Create := fun _ => Some "no such file or directory" |}.

Definition flags (reset : bool) (encodings : string) : Flags :=
  {| listFlag := false; resetFlag := reset; verboseFlag := false;
     encodingsFlag := encodings |}.

(** A file that cannot be opened, and a file whose handle cannot be
    rewound. *)
Definition locked_file : fnode :=
  Node 420 {| f_open_err := Some "permission denied"; f_data := [];
              f_seek_err := fun _ => None |} None [].

Definition unseekable_file (content : string) : fnode :=
  Node 420 {| f_open_err := None;
              f_data := String.list_byte_of_string content;
              f_seek_err := fun _ => Some "illegal seek" |} None [].

(** A directory that cannot be read. *)
Definition unreadable_dir : fnode :=
  Node dir_mode (plain_file []) (Some "permission denied") [].

Definition two_roots_env (second : fnode) : Env :=
  {| index_File := "/home/u/.csearchindex";
     filepath_Abs := fun p => Ok p;
     os_Readlink := fun _ => Error "invalid argument";
     htmlindex_Get := fun name =>
       if decide (name = "us-ascii") then Ok seven_bit
       else Error "htmlindex: invalid encoding name";
     os_Lstat := fun p =>
       if decide (p = "/r1") then
         Ok (directory [("a", Ok (reg_file "x")); ("b", Ok second);
                        ("c", Ok (reg_file "z"))])
       else if decide (p = "/r2") then Ok (directory [("d", Ok (reg_file "w"))])
       else Error "no such file or directory" |}.

Definition missing_root_env : Env :=
  {| index_File := "/home/u/.csearchindex";
     filepath_Abs := fun p => Ok p;
     os_Readlink := fun _ => Error "invalid argument";
     htmlindex_Get := fun _ => Error "htmlindex: invalid encoding name";
     os_Lstat := fun p =>
       if decide (p = "/src") then
         Ok (directory [(".#lock", Error "no such file or directory");
                        ("a.txt", Ok (reg_file "hello"))])
       else Error "no such file or directory" |}.

(** The argument [/home/u/repo] is a symbolic link to the directory
    [/x/.git], its target written with a slash at the end. *)
Definition git_link_env : Env :=
  {| index_File := "/home/u/.csearchindex";
     filepath_Abs := fun p => Ok p;
     os_Readlink := fun p =>
       if decide (p = "/home/u/repo") then Ok "/x/.git/"
       else Error "invalid argument";
     htmlindex_Get := fun _ => Error "htmlindex: invalid encoding name";
     os_Lstat := fun p =>
       if decide (p = "/x/.git/") then
         Ok (directory [("foo.txt", Ok (reg_file "x"))])
       else Error "no such file or directory" |}.

(** * Properties *)

(** ** The order of byte strings *)

Lemma nat_of_ascii_inj a b : nat_of_ascii a = nat_of_ascii b -> a = b.
Proof.
  intros H. rewrite <- (ascii_nat_embedding a), <- (ascii_nat_embedding b).
  by rewrite H.
Qed.

Lemma str_ltb_irrefl s : str_ltb s s = false.
Proof.
  induction s as [|a s IH]; simpl; [done|].
  rewrite IH, Nat.ltb_irrefl, Nat.eqb_refl. done.
Qed.

Lemma str_ltb_asym s t : str_ltb s t = true -> str_ltb t s = false.
Proof.
  revert t. induction s as [|a s IH]; intros [|b t]; simpl; try done.
  intros H. apply orb_true_iff in H as [H|H].
  - apply Nat.ltb_lt in H.
    replace (nat_of_ascii b <? nat_of_ascii a)%nat with false
      by (symmetry; apply Nat.ltb_ge; lia).
    replace (nat_of_ascii b =? nat_of_ascii a)%nat with false
      by (symmetry; apply Nat.eqb_neq; lia).
    done.
  - apply andb_true_iff in H as [Hab H]. apply Nat.eqb_eq in Hab.
    rewrite Hab, Nat.ltb_irrefl, Nat.eqb_refl. simpl. by apply IH.
Qed.

Lemma str_ltb_trichotomy s t :
  str_ltb s t = false -> str_ltb t s = false -> s = t.
Proof.
  revert t. induction s as [|a s IH]; intros [|b t]; simpl; try done.
  intros H1 H2.
  apply orb_false_iff in H1 as [H1 H1'], H2 as [H2 H2'].
  apply Nat.ltb_ge in H1, H2.
  assert (nat_of_ascii a = nat_of_ascii b) as Hab by lia.
  rewrite Hab, Nat.eqb_refl in H1', H2'. simpl in *.
  f_equal; [by apply nat_of_ascii_inj | by apply IH].
Qed.

Lemma str_ltb_negtrans s t u :
  str_ltb t s = false -> str_ltb u t = false -> str_ltb u s = false.
Proof.
  revert t u. induction s as [|a s IH]; intros [|b t] [|c u]; simpl; try done.
  intros H1 H2.
  apply orb_false_iff in H1 as [H1 H1'], H2 as [H2 H2'].
  apply Nat.ltb_ge in H1, H2.
  apply orb_false_iff. split; [apply Nat.ltb_ge; lia|].
  destruct (decide (nat_of_ascii c = nat_of_ascii a)) as [Hca|Hca].
  - assert (nat_of_ascii b = nat_of_ascii a) as Hba by lia.
    rewrite Hca, Nat.eqb_refl. simpl.
    rewrite Hba, Nat.eqb_refl in H1'. rewrite Hca, <- Hba, Nat.eqb_refl in H2'.
    simpl in *. by eapply IH.
  - apply Nat.eqb_neq in Hca. by rewrite Hca.
Qed.

Global Instance str_le_refl : Reflexive str_le.
Proof. intros s. apply str_ltb_irrefl. Qed.

Global Instance str_le_trans : Transitive str_le.
Proof. intros s t u. apply str_ltb_negtrans. Qed.

Global Instance str_le_total : Total str_le.
Proof.
  intros s t. unfold str_le.
  destruct (str_ltb t s) eqn:H; [right; by apply str_ltb_asym | by left].
Qed.

Global Instance str_le_antisymm : AntiSymm (=) str_le.
Proof. intros s t H1 H2. by apply str_ltb_trichotomy. Qed.

Lemma str_le_empty_l s : str_le "" s.
Proof. unfold str_le. by destruct s. Qed.

Lemma str_le_empty_r s : str_le s "" -> s = "".
Proof. unfold str_le. by destruct s. Qed.

(** ** sort.Strings *)

Lemma sort_Strings_Sorted l : Sorted str_le (sort_Strings l).
Proof. apply (Sorted_merge_sort str_le). Qed.

Lemma sort_Strings_Permutation l : sort_Strings l ≡ₚ l.
Proof. apply merge_sort_Permutation. Qed.

(** Whatever algorithm sorts the slice, the result is the same. *)
Lemma sort_Strings_unique l l' :
  Sorted str_le l' -> l' ≡ₚ l -> l' = sort_Strings l.
Proof.
  intros Hs Hp. apply (Sorted_unique str_le); [done | apply sort_Strings_Sorted |].
  by rewrite Hp, sort_Strings_Permutation.
Qed.

(** ** PathCanonicalizer *)

Lemma drop_empty_Sorted l : Sorted str_le l -> Sorted str_le (drop_empty l).
Proof.
  induction 1 as [|a l Hl IH Hhd]; simpl; [constructor|].
  case_decide; [done | by constructor].
Qed.

Lemma filter_nonempty_id (l : list string) :
  Forall (λ s, s ≠ "") l -> filter (λ s, s ≠ "") l = l.
Proof.
  induction 1 as [|a l Ha Hl IH]; [done|].
  rewrite filter_cons_True by done. by f_equal.
Qed.

(** After sorting, the empty entries are the head of the slice: dropping
    the leading ones drops them all. *)
Lemma drop_empty_filter l :
  StronglySorted str_le l -> drop_empty l = filter (λ s, s ≠ "") l.
Proof.
  induction 1 as [|a l Hl IH Hall]; simpl; [done|].
  case_decide as Ha.
  - rewrite filter_cons_False by naive_solver. done.
  - rewrite filter_cons_True by done. f_equal.
    symmetry. apply filter_nonempty_id.
    eapply Forall_impl; [exact Hall|]. simpl. intros s Hs ->.
    by apply str_le_empty_r in Hs.
Qed.

Lemma canonicalize_fst E args :
  fst (canonicalize E args) = drop_empty (sort_Strings (fst (resolve_args E args))).
Proof. done. Qed.

Lemma canonicalize_filter E args :
  fst (canonicalize E args)
  = filter (λ s, s ≠ "") (sort_Strings (fst (resolve_args E args))).
Proof.
  rewrite canonicalize_fst. apply drop_empty_filter.
  apply Sorted_StronglySorted; [apply _ | apply sort_Strings_Sorted].
Qed.

(** C2, as stated, fails: the program sorts the resolved paths and drops
    the empty ones, but it never removes duplicates.  Naming the same
    path twice hands it to the index twice. *)
Lemma canonicalize_keeps_duplicates :
  fst (canonicalize plain_env ["/a"; "/a"]) = ["/a"; "/a"]
  /\ ~ NoDup (fst (canonicalize plain_env ["/a"; "/a"])).
Proof.
  split; [by vm_compute|].
  intros H. vm_compute in H. apply NoDup_cons in H as [H _].
  apply H. by left.
Qed.

(** C2, amended: for every list of raw input paths, the paths handed to
    indexing are sorted (no entry is before an earlier one), none of them
    is empty, and they are exactly the non-empty resolutions of the
    inputs, each as often as it was produced. *)
Theorem canonicalize_sorted_nonempty E args :
  let out := fst (canonicalize E args) in
  Sorted str_le out
  /\ ("" ∉ out)
  /\ out ≡ₚ filter (λ s, s ≠ "") (fst (resolve_args E args)).
Proof.
  cbv zeta. split; [|split].
  - rewrite canonicalize_fst. apply drop_empty_Sorted, sort_Strings_Sorted.
  - rewrite canonicalize_filter. intros H.
    apply list_elem_of_filter in H as [H _]. done.
  - rewrite canonicalize_filter. by rewrite sort_Strings_Permutation.
Qed.

Lemma resolve_args_map E args :
  fst (resolve_args E args) = (λ arg, fst (resolve_arg E arg)) <$> args.
Proof. induction args as [|arg args IH]; simpl; [done | by rewrite IH]. Qed.

Lemma canonicalize_elem_of E args arg :
  arg ∈ args -> fst (resolve_arg E arg) ≠ "" ->
  fst (resolve_arg E arg) ∈ fst (canonicalize E args).
Proof.
  intros Hin Hne. rewrite canonicalize_filter.
  apply list_elem_of_filter. split; [done|].
  rewrite sort_Strings_Permutation, resolve_args_map.
  by apply (list_elem_of_fmap_2 (λ arg, fst (resolve_arg E arg))).
Qed.

(** C7: symbolic links are resolved one level, once per input path.  A
    path whose absolute form [a] is a link to [b] resolves to [b]
    whatever [b] itself is, in particular when [b] is a link to some
    other [c]; [b] is what is handed on to indexing.  A path that is not
    a link resolves to its absolute form. *)
Theorem resolve_arg_one_level E arg a :
  filepath_Abs E arg = Ok a ->
  (forall b, os_Readlink E a = Ok b -> b ≠ "" ->
     fst (resolve_arg E arg) = b
     /\ (forall c, os_Readlink E b = Ok c -> c ≠ b -> fst (resolve_arg E arg) ≠ c)
     /\ (forall args, arg ∈ args -> b ∈ fst (canonicalize E args)))
  /\ (forall err, os_Readlink E a = Error err -> fst (resolve_arg E arg) = a).
Proof.
  intros Habs. split.
  - intros b Hb Hne.
    assert (fst (resolve_arg E arg) = b) as Hres.
    { unfold resolve_arg. rewrite Habs, Hb. by case_decide. }
    split; [done|]. split.
    + intros c _ Hc. by rewrite Hres.
    + intros args Hin. rewrite <- Hres. apply canonicalize_elem_of; [done|].
      by rewrite Hres.
  - intros err Herr. unfold resolve_arg. by rewrite Habs, Herr.
Qed.

Lemma resolve_arg_one_level_witness :
  fst (resolve_arg chain_env "A") = "/cwd/B"
  /\ fst (resolve_arg chain_env "A") ≠ "/cwd/C"
  /\ "/cwd/B" ∈ fst (canonicalize chain_env ["x"; "A"])
  /\ fst (resolve_arg chain_env "x") = "/cwd/x".
Proof.
  destruct (resolve_arg_one_level chain_env "A" "/cwd/A" eq_refl) as [H _].
  destruct (H "/cwd/B" eq_refl ltac:(done)) as (H1 & H2 & H3).
  destruct (resolve_arg_one_level chain_env "x" "/cwd/x" eq_refl) as [_ H4].
  split; [exact H1|]. split; [by apply H2|]. split.
  - apply H3. by apply list_elem_of_In; right; left.
  - exact (H4 "invalid argument" eq_refl).
Defined.

(** ** EncodingDetector *)

Lemma probe_last_match f encodings k found :
  (forall i, f_seek_err f i = None) ->
  probe f encodings k found
  = Ok (from_option Some found (last_match encodings (f_data f))).
Proof.
  intros Hseek. revert k found.
  induction encodings as [|enc rest IH]; intros k found; simpl; [done|].
  rewrite Hseek, IH. unfold last_match. f_equal.
  destruct (validates enc (f_data f)) eqn:Hv.
  - rewrite filter_cons_True by done.
    destruct (filter _ rest) as [|e l] eqn:Hf; [done|].
    rewrite last_cons_cons, (last_cons e l). by destruct (last l).
  - rewrite filter_cons_False by (by rewrite Hv). done.
Qed.

Lemma openEncoded_found path f encodings :
  f_open_err f = None -> (forall i, f_seek_err f i = None) ->
  openEncoded path f encodings
  = (Ok match last_match encodings (f_data f) with
        | Some found => DecodedReader found (f_data f)
        | None => RawReader (f_data f)
        end, [EOpen path]).
Proof.
  intros Hopen Hseek. unfold openEncoded.
  rewrite Hopen, (probe_last_match _ _ _ _ Hseek). simpl.
  by destruct (last_match encodings (f_data f)).
Qed.

(** C4: the last candidate that validates wins.  On a file that opens
    and rewinds, the stream handed to the index decodes with the last
    candidate of the list that validates; with [E1; E2] both validating
    that is [E2]; with [E1] the only one validating it is [E1]; with no
    candidate validating (the empty list included) it is the file's own
    bytes, unchanged. *)
Theorem openEncoded_last_match_wins path f :
  f_open_err f = None -> (forall i, f_seek_err f i = None) ->
  (forall E1 E2, validates E1 (f_data f) = true -> validates E2 (f_data f) = true ->
     fst (openEncoded path f [E1; E2]) = Ok (DecodedReader E2 (f_data f)))
  /\ (forall E1, validates E1 (f_data f) = true ->
     fst (openEncoded path f [E1]) = Ok (DecodedReader E1 (f_data f)))
  /\ (forall E1 E2, validates E1 (f_data f) = true -> validates E2 (f_data f) = false ->
     fst (openEncoded path f [E1; E2]) = Ok (DecodedReader E1 (f_data f)))
  /\ (forall encodings, Forall (λ e, validates e (f_data f) = false) encodings ->
     exists r, fst (openEncoded path f encodings) = Ok r
               /\ reader_content r = Some (f_data f))
  /\ (forall encodings found, last_match encodings (f_data f) = Some found ->
     fst (openEncoded path f encodings) = Ok (DecodedReader found (f_data f))
     /\ reader_content (DecodedReader found (f_data f)) = decode found (f_data f)
     /\ is_Some (decode found (f_data f))).
Proof.
  intros Hopen Hseek.
  assert (forall encodings, fst (openEncoded path f encodings)
    = Ok match last_match encodings (f_data f) with
         | Some found => DecodedReader found (f_data f)
         | None => RawReader (f_data f)
         end) as Hres.
  { intros encodings. by rewrite openEncoded_found. }
  repeat split.
  - intros E1 E2 H1 H2. rewrite Hres. unfold last_match.
    by rewrite !filter_cons_True by done.
  - intros E1 H1. rewrite Hres. unfold last_match.
    by rewrite filter_cons_True by done.
  - intros E1 E2 H1 H2. rewrite Hres. unfold last_match.
    rewrite filter_cons_True by done.
    by rewrite filter_cons_False by (by rewrite H2).
  - intros encodings Hnone. exists (RawReader (f_data f)). split; [|done].
    rewrite Hres. unfold last_match.
    replace (filter _ encodings) with (@nil Encoding); [done|].
    symmetry. induction Hnone as [|e l He Hl IH]; [done|].
    by rewrite filter_cons_False by (by rewrite He).
  - by rewrite Hres, H.
  - unfold last_match in H. apply last_Some_elem_of in H.
    apply list_elem_of_filter in H as [H _].
    unfold validates in H. by destruct (decode found (f_data f)).
Qed.

Lemma openEncoded_last_match_wins_witness :
  let hello := String.list_byte_of_string "hello" in
  let high := [Byte.x68; Byte.xe9] in
  fst (openEncoded "/f" (plain_file hello) [seven_bit; eight_bit])
    = Ok (DecodedReader eight_bit hello)
  /\ fst (openEncoded "/f" (plain_file hello) [seven_bit])
    = Ok (DecodedReader seven_bit hello)
  /\ fst (openEncoded "/f" (plain_file high) [eight_bit; seven_bit])
    = Ok (DecodedReader eight_bit high)
  /\ (exists r, fst (openEncoded "/f" (plain_file high) [seven_bit]) = Ok r
                /\ reader_content r = Some high)
  /\ (exists r, fst (openEncoded "/f" (plain_file high) []) = Ok r
                /\ reader_content r = Some high).
Proof.
  intros hello high.
  destruct (openEncoded_last_match_wins "/f" (plain_file hello) eq_refl
              (fun _ => eq_refl)) as (H1 & H2 & _).
  destruct (openEncoded_last_match_wins "/f" (plain_file high) eq_refl
              (fun _ => eq_refl)) as (_ & _ & H3 & H4 & _).
  split; [exact (H1 seven_bit eight_bit eq_refl eq_refl)|].
  split; [exact (H2 seven_bit eq_refl)|].
  split; [exact (H3 eight_bit seven_bit eq_refl eq_refl)|].
  split.
  - apply (H4 [seven_bit]). repeat constructor.
  - apply (H4 []). constructor.
Defined.

(** ** Walker *)

Lemma fnode_ind (P : fnode -> Prop) :
  (forall mode f readdir_err entries,
      Forall (λ ne, match ne.2 with Ok c => P c | Error _ => True end) entries ->
      P (Node mode f readdir_err entries)) ->
  forall n, P n.
Proof.
  intros H. fix IH 1. intros [mode f readdir_err entries]. apply H.
  induction entries as [|[name [c|err]] rest IHrest]; constructor; simpl; auto.
Qed.

Lemma fst_bind {A B} (m : Eff A) (k : A -> Eff B) :
  fst (bind m k) = fst (k (fst m)).
Proof. done. Qed.

Lemma snd_bind {A B} (m : Eff A) (k : A -> Eff B) :
  snd (bind m k) = snd m ++ snd (k (fst m)).
Proof. done. Qed.

Lemma walkFn_skipped encodings path info err :
  skipped path = true ->
  walkFn encodings path info err
  = ret match info with
        | None => WPanic
        | Some n => if IsDir n then WSkipDir else WNil
        end.
Proof.
  unfold skipped, walkFn. simpl. intros ->.
  destruct info as [n|]; [by destruct (IsDir n) | done].
Qed.

Lemma walkFn_not_skipped encodings path info err :
  skipped path = false ->
  walkFn encodings path info err
  = match err with
    | Some e => run emit (ELog (LogPathErr path e)) ;; ret WNil
    | None =>
        match info with
        | Some n =>
            if regular n then
              do r <- openEncoded path (n_file n) encodings ;;
              match r with
              | Error e => ret (WErr path e)
              | Ok rd => run emit (EAdd path rd) ;; run emit (EClose path) ;; ret WNil
              end
            else ret WNil
        | None => ret WNil
        end
    end.
Proof. unfold skipped, walkFn. simpl. by intros ->. Qed.

Lemma IsDir_not_regular n : IsDir n = true -> regular n = false.
Proof.
  unfold IsDir, regular. intros H. apply negb_true_iff, Z.eqb_neq in H.
  apply Z.eqb_neq. intros H0. apply H.
  replace ModeDir with (Z.land ModeType ModeDir) by reflexivity.
  by rewrite Z.land_assoc, H0.
Qed.

Lemma openEncoded_events path f encodings :
  snd (openEncoded path f encodings) = []
  \/ snd (openEncoded path f encodings) = [EOpen path].
Proof.
  unfold openEncoded. destruct (f_open_err f); [by left|]. right.
  rewrite snd_bind. simpl.
  by destruct (probe f encodings 0 None) as [[?|]|?].
Qed.

(** The events of one call of the callback. *)
Lemma walkFn_elem encodings path info err e :
  e ∈ snd (walkFn encodings path info err) ->
  skipped path = false
  /\ ((exists msg, err = Some msg /\ e = ELog (LogPathErr path msg))
      \/ (err = None /\ exists n, info = Some n /\ regular n = true
          /\ (e = EOpen path \/ e = EClose path \/ exists r, e = EAdd path r))).
Proof.
  destruct (skipped path) eqn:Hs.
  { rewrite walkFn_skipped by done. simpl. by intros ?%elem_of_nil. }
  rewrite walkFn_not_skipped by done. intros He. split; [done|].
  destruct err as [msg|].
  { left. exists msg. split; [done|]. simpl in He. by apply list_elem_of_singleton in He. }
  right. split; [done|]. destruct info as [n|]; [|by apply elem_of_nil in He].
  destruct (regular n) eqn:Hreg; [|by apply elem_of_nil in He].
  exists n. split; [done|]. split; [done|].
  rewrite snd_bind in He. apply elem_of_app in He as [He|He].
  - destruct (openEncoded_events path (n_file n) encodings) as [H|H];
      rewrite H in He; [by apply elem_of_nil in He|].
    left. by apply list_elem_of_singleton in He.
  - destruct (fst (openEncoded path (n_file n) encodings)) as [rd|msg];
      [|by apply elem_of_nil in He].
    simpl in He. apply elem_of_cons in He as [->|He]; [right; right; by exists rd|].
    apply list_elem_of_singleton in He as ->. right. by left.
Qed.

(** An event of the loop over a directory's names comes from the
    callback on a name whose [Lstat] failed, or from the walk of a name
    whose [Lstat] succeeded. *)
Lemma walk_entries_elem walk_child encodings path entries e :
  e ∈ snd (walk_entries walk_child encodings path entries) ->
  (exists name err, (name, Error err) ∈ entries
      /\ e ∈ snd (walkFn encodings (filepath_Join path name) None (Some err)))
  \/ (exists name child, (name, Ok child) ∈ entries
      /\ e ∈ snd (walk_child (filepath_Join path name) child)).
Proof.
  induction entries as [|[name st] rest IH]; simpl.
  { by intros ?%elem_of_nil. }
  assert (e ∈ snd (walk_entries walk_child encodings path rest) ->
    (exists name0 err, (name0, Error err) ∈ (name, st) :: rest
        /\ e ∈ snd (walkFn encodings (filepath_Join path name0) None (Some err)))
    \/ (exists name0 child, (name0, Ok child) ∈ (name, st) :: rest
        /\ e ∈ snd (walk_child (filepath_Join path name0) child))) as Hrest.
  { intros [(n & err & Hin & He)|(n & c & Hin & He)]%IH;
      [left; exists n, err | right; exists n, c]; split; auto; by right. }
  destruct st as [child|err]; rewrite snd_bind; intros [He|He]%elem_of_app.
  - right. exists name, child. split; [by left | done].
  - destruct (fst (walk_child (filepath_Join path name) child));
      try destruct (IsDir child); auto; by apply elem_of_nil in He.
  - left. exists name, err. split; [by left | done].
  - destruct (fst (walkFn encodings (filepath_Join path name) None (Some err)));
      auto; by apply elem_of_nil in He.
Qed.

Lemma walk_elem encodings path mode f readdir_err entries e :
  let info := Node mode f readdir_err entries in
  e ∈ snd (walk encodings path info) ->
  e ∈ snd (walkFn encodings path (Some info)
             (if IsDir info then readdir_err else None))
  \/ (skipped path = false
      /\ ((exists name err, (name, Error err) ∈ entries
            /\ e ∈ snd (walkFn encodings (filepath_Join path name) None (Some err)))
          \/ (exists name child, (name, Ok child) ∈ entries
            /\ e ∈ snd (walk encodings (filepath_Join path name) child)))).
Proof.
  intros info. simpl. fold info. destruct (IsDir info) eqn:Hdir; simpl; [|by left].
  intros [He|He]%elem_of_app; [by left|]. right.
  destruct (skipped path) eqn:Hs.
  { rewrite walkFn_skipped in He by done. simpl in He. rewrite Hdir in He.
    destruct readdir_err; by apply elem_of_nil in He. }
  split; [done|].
  destruct readdir_err; [by apply elem_of_nil in He|].
  destruct (fst (walkFn encodings path (Some info) None));
    try by apply elem_of_nil in He.
  by apply walk_entries_elem in He.
Qed.

(** A visited entry that matches the skip rule yields nothing at all,
    and neither does anything below it. *)
Lemma walk_skipped encodings path info :
  skipped path = true -> snd (walk encodings path info) = [].
Proof.
  intros Hs. destruct info as [mode f readdir_err entries]. simpl.
  set (info := Node mode f readdir_err entries).
  destruct (IsDir info) eqn:Hdir; simpl.
  - rewrite walkFn_skipped by done. simpl. rewrite Hdir.
    by destruct readdir_err.
  - by rewrite walkFn_skipped.
Qed.

Lemma walk_add_visible encodings info :
  forall path q r,
    EAdd q r ∈ snd (walk encodings path info) -> visible path info q.
Proof.
  induction info as [mode f readdir_err entries IH] using fnode_ind.
  intros path q r [He|[Hs [He|He]]]%walk_elem.
  - apply walkFn_elem in He as [Hs [(msg & _ & He)|(_ & n & _ & _ & He)]];
      [done|].
    destruct He as [He|[He|(r' & He)]]; try done.
    injection He as -> _. by constructor.
  - destruct He as (name & err & _ & He).
    apply walkFn_elem in He as [_ [(msg & _ & He)|(He & _)]]; done.
  - destruct He as (name & child & Hin & He).
    eapply visible_below; [done | exact Hin |].
    rewrite Forall_forall in IH. specialize (IH _ Hin). simpl in IH.
    by eapply IH.
Qed.

Lemma filepath_Split_cons c rest :
  filepath_Split (String c rest)
  = match fst (filepath_Split rest) with
    | EmptyString =>
        if decide (c = "/"%char) then ("/", snd (filepath_Split rest))
        else ("", String c (snd (filepath_Split rest)))
    | dir => (String c dir, snd (filepath_Split rest))
    end.
Proof. simpl. by destruct (filepath_Split rest) as [[|] ?]. Qed.

Lemma filepath_Split_no_slash name :
  has_slash name = false -> filepath_Split name = ("", name).
Proof.
  induction name as [|c name IH]; [done|].
  intros [Hc Hn]%orb_false_iff. rewrite filepath_Split_cons, (IH Hn). simpl.
  apply bool_decide_eq_false in Hc. by rewrite decide_False.
Qed.

Lemma filepath_Split_slash dir name :
  has_slash name = false ->
  filepath_Split (dir +:+ "/" +:+ name) = (dir +:+ "/", name).
Proof.
  intros Hn. induction dir as [|c dir IH].
  - change ("" +:+ "/" +:+ name) with (String "/" name).
    by rewrite filepath_Split_cons, (filepath_Split_no_slash _ Hn).
  - change (String c dir +:+ "/" +:+ name) with (String c (dir +:+ "/" +:+ name)).
    rewrite filepath_Split_cons, IH. simpl. by destruct dir.
Qed.

Lemma last_byte_app_slash path c :
  last_byte path = Some c -> exists dir, path = dir +:+ String c "".
Proof.
  induction path as [|a path IH]; simpl; [done|].
  destruct path as [|b path].
  - intros [= ->]. by exists "".
  - intros [dir Hdir]%IH. exists (String a dir). by rewrite Hdir.
Qed.

Lemma string_app_assoc (s t u : string) : (s +:+ t) +:+ u = s +:+ t +:+ u.
Proof.
  induction s as [|c s IH]; [done|].
  change (String c ((s +:+ t) +:+ u) = String c (s +:+ t +:+ u)). by rewrite IH.
Qed.

Lemma strings_Split_nonempty sep s : strings_Split sep s ≠ [].
Proof.
  destruct s as [|c s]; [done|]. cbn [strings_Split].
  case_decide; [done|]. by destruct (strings_Split sep s).
Qed.

Lemma strings_Split_app sep s t :
  strings_Split sep (s +:+ String sep t)
  = strings_Split sep s ++ strings_Split sep t.
Proof.
  induction s as [|c s IH].
  - change ("" +:+ String sep t) with (String sep t).
    cbn [strings_Split]. by rewrite decide_True.
  - change (String c s +:+ String sep t) with (String c (s +:+ String sep t)).
    cbn [strings_Split]. destruct (decide (c = sep)); [by rewrite IH|].
    rewrite IH. pose proof (strings_Split_nonempty sep s).
    by destruct (strings_Split sep s).
Qed.

Lemma strings_Split_no_slash name :
  has_slash name = false -> strings_Split "/" name = [name].
Proof.
  induction name as [|c name IH]; [done|].
  intros [Hc Hn]%orb_false_iff. apply bool_decide_eq_false in Hc.
  cbn [strings_Split]. by rewrite decide_False, (IH Hn).
Qed.

Lemma strings_Join_snoc sep l name :
  strings_Join sep (l ++ [name])
  = match l with
    | [] => name
    | _ => strings_Join sep l +:+ String sep name
    end.
Proof.
  induction l as [|s l IH]; [done|].
  destruct l as [|t l]; [done|].
  change (strings_Join sep ((s :: t :: l) ++ [name]))
    with (s +:+ String sep (strings_Join sep ((t :: l) ++ [name]))).
  rewrite IH.
  change (strings_Join sep (s :: t :: l))
    with (s +:+ String sep (strings_Join sep (t :: l))).
  by rewrite string_app_assoc.
Qed.

(** The last element of a cleaned path that ends in a name. *)
Lemma filepath_Clean_last out name s :
  has_slash name = false -> name ≠ "" ->
  s = strings_Join "/" (reverse (name :: out)) ->
  s ≠ "" /\ snd (filepath_Split s) = name
  /\ snd (filepath_Split ("/" +:+ s)) = name.
Proof.
  intros Hn Hne ->. rewrite reverse_cons, strings_Join_snoc.
  destruct (reverse out) as [|t l] eqn:Hout.
  - split; [done|]. split.
    + by rewrite filepath_Split_no_slash.
    + exact (f_equal snd (filepath_Split_slash "" name Hn)).
  - set (d := strings_Join "/" (t :: l)). split; [|split].
    + by destruct d.
    + exact (f_equal snd (filepath_Split_slash d name Hn)).
    + rewrite <- string_app_assoc.
      exact (f_equal snd (filepath_Split_slash ("/" +:+ d) name Hn)).
Qed.

Lemma clean_elem_name rooted out name :
  name ≠ "" -> name ≠ "." -> name ≠ ".." ->
  clean_elem rooted out name = name :: out.
Proof. intros. unfold clean_elem. by rewrite !decide_False. Qed.

Lemma filepath_Split_Join path name :
  has_slash name = false -> name ≠ "" -> name ≠ "." -> name ≠ ".." ->
  snd (filepath_Split (filepath_Join path name)) = name.
Proof.
  intros Hn Hne Hdot Hdotdot. unfold filepath_Join.
  destruct (decide (path = "")) as [->|Hpath].
  - rewrite decide_False by done. destruct name as [|c name]; [done|].
    unfold filepath_Clean.
    rewrite (strings_Split_no_slash _ Hn). cbn [foldl].
    rewrite clean_elem_name by done.
    destruct (filepath_Clean_last [] (String c name) _ Hn Hne eq_refl)
      as (Hs & H1 & H2).
    apply orb_false_iff in Hn as [Hc _]. rewrite Hc.
    by rewrite decide_False.
  - destruct path as [|c path]; [done|].
    change (String c path +:+ "/" +:+ name)
      with (String c (path +:+ String "/" name)).
    unfold filepath_Clean.
    change (String c (path +:+ String "/" name))
      with (String c path +:+ String "/" name).
    rewrite strings_Split_app, (strings_Split_no_slash _ Hn), foldl_app.
    cbn [foldl]. rewrite clean_elem_name by done.
    set (out := foldl _ [] _).
    destruct (filepath_Clean_last out name _ Hn Hne eq_refl)
      as (Hs & H1 & H2).
    destruct (bool_decide (c = "/"%char)); [done|].
    by rewrite decide_False.
Qed.

Lemma skipped_Join path name :
  has_slash name = false -> name ≠ "" -> name ≠ "." -> name ≠ ".." ->
  skipped (filepath_Join path name) = skip_rule name.
Proof.
  intros Hn Hne Hdot Hdotdot. unfold skipped. simpl.
  rewrite filepath_Split_Join by done.
  by rewrite bool_decide_eq_false_2.
Qed.

Lemma walkFn_walk_events encodings path info err :
  Forall walk_event (snd (walkFn encodings path info err)).
Proof.
  apply Forall_forall. intros e He.
  apply walkFn_elem in He as [_ [(msg & _ & ->)|(_ & n & _ & _ & He)]]; [done|].
  by destruct He as [->|[->|[r ->]]].
Qed.

Lemma walk_walk_events encodings info :
  forall path, Forall walk_event (snd (walk encodings path info)).
Proof.
  induction info as [mode f readdir_err entries IH] using fnode_ind.
  intros path. apply Forall_forall. intros e [He|[_ [He|He]]]%walk_elem.
  - by eapply Forall_forall in He; [|apply walkFn_walk_events].
  - destruct He as (name & err & _ & He).
    by eapply Forall_forall in He; [|apply walkFn_walk_events].
  - destruct He as (name & child & Hin & He).
    rewrite Forall_forall in IH. specialize (IH _ Hin). simpl in IH.
    by eapply Forall_forall in He; [|apply IH].
Qed.

Lemma filepath_Walk_snd E encodings root :
  snd (filepath_Walk E encodings root)
  = match os_Lstat E root with
    | Error err => snd (walkFn encodings root None (Some err))
    | Ok info => snd (walk encodings root info)
    end.
Proof.
  unfold filepath_Walk. rewrite snd_bind. simpl. rewrite app_nil_r.
  by destruct (os_Lstat E root).
Qed.

Lemma filepath_Walk_events E encodings root :
  Forall walk_event (snd (filepath_Walk E encodings root)).
Proof.
  rewrite filepath_Walk_snd. destruct (os_Lstat E root).
  - apply walk_walk_events.
  - apply walkFn_walk_events.
Qed.

Arguments filepath_Walk : simpl never.
Arguments walk_roots : simpl never.
Arguments walk : simpl never.
Arguments walkFn : simpl never.

Lemma walk_roots_cons E encodings arg rest :
  walk_roots E encodings (arg :: rest)
  = (match fst (filepath_Walk E encodings arg) with
     | WPanic => true
     | _ => fst (walk_roots E encodings rest)
     end,
     ELog (LogIndex arg) :: snd (filepath_Walk E encodings arg)
       ++ match fst (filepath_Walk E encodings arg) with
          | WPanic => []
          | _ => snd (walk_roots E encodings rest)
          end).
Proof.
  change (walk_roots E encodings (arg :: rest))
    with (run emit (ELog (LogIndex arg)) ;;
          do r <- filepath_Walk E encodings arg ;;
          match r with
          | WPanic => ret true
          | _ => walk_roots E encodings rest
          end).
  destruct (filepath_Walk E encodings arg) as [r evs].
  unfold bind, emit. simpl. by destruct r.
Qed.

Lemma walk_roots_events E encodings args :
  Forall walk_event (snd (walk_roots E encodings args)).
Proof.
  induction args as [|arg rest IH]; [constructor|].
  rewrite walk_roots_cons. cbn [snd].
  constructor; [done|]. apply Forall_app. split; [apply filepath_Walk_events|].
  destruct (fst (filepath_Walk E encodings arg)); done || constructor.
Qed.

(** C5, amended: the skip rule.  The rule is tested on the last element
    of the path the callback is given, what follows the last slash, when
    that element is not empty.  Whatever is handed to the index by the
    walk of a root was reached from the root through entries none of
    which, the file itself and the root included, has a last element that
    matches the rule; a visited entry that matches yields nothing, and
    nothing below it is visited (a file [foo.txt] under an entry [.git] is
    never yielded, a file [foo~] is omitted).  For an entry of a directory
    (a name without slash, which is neither empty nor [.] nor [..]) the
    element tested is the entry's name.  A path that ends in a slash, as
    a root can, has an empty last element and is not tested. *)
Theorem walker_skip_rule E encodings root :
  (forall q r, EAdd q r ∈ snd (filepath_Walk E encodings root) ->
     exists info, os_Lstat E root = Ok info /\ visible root info q)
  /\ (forall path info, skipped path = true -> snd (walk encodings path info) = [])
  /\ (forall path name,
        has_slash name = false -> name ≠ "" -> name ≠ "." -> name ≠ ".." ->
        skipped (filepath_Join path name) = skip_rule name)
  /\ (forall elem, elem ≠ "" ->
        skip_rule elem = true <->
        (exists s, elem = String "." s \/ elem = String "#" s \/ elem = String "~" s)
        \/ last_byte elem = Some "~"%char)
  /\ (forall path, last_byte path = Some "/"%char -> skipped path = false).
Proof.
  split; [|split; [|split; [|split]]].
  - intros q r. rewrite filepath_Walk_snd. destruct (os_Lstat E root) as [info|err].
    + intros He. exists info. split; [done|]. by eapply walk_add_visible.
    + intros He. by apply walkFn_elem in He as [_ [(msg & _ & ?)|(? & _)]].
  - intros path info. apply walk_skipped.
  - intros path name. apply skipped_Join.
  - intros [|c s] Hne; [done|]. unfold skip_rule.
    rewrite !orb_true_iff, !bool_decide_eq_true. split.
    + intros [[[->| ->]| ->]|H]; [left; exists s; auto ..|by right].
    + intros [(s' & [H|[H|H]])|H]; [injection H as -> _; auto ..|by right].
  - intros path [dir ->]%last_byte_app_slash. unfold skipped.
    change (dir +:+ String "/" "") with (dir +:+ "/" +:+ "").
    by rewrite (filepath_Split_slash dir "" eq_refl).
Qed.

Lemma walker_skip_rule_witness :
  visible "/src" sample_tree "/src/a.txt"
  /\ snd (walk [] "/src/.hidden" (directory [("b.txt", Ok (reg_file "skip me"))])) = []
  /\ skipped (filepath_Join "/src" "c~") = true
  /\ skipped "/x/.git/" = false.
Proof.
  destruct (walker_skip_rule sample_env [] "/src") as (H1 & H2 & H3 & _ & H5).
  split; [|split; [|split]].
  - destruct (H1 "/src/a.txt" (RawReader (String.list_byte_of_string "hello")))
      as (info & Hinfo & Hvis).
    + apply list_elem_of_In. vm_compute. right. by left.
    + injection Hinfo as <-. exact Hvis.
  - apply H2. reflexivity.
  - rewrite H3; [reflexivity | reflexivity | discriminate ..].
  - apply H5. reflexivity.
Defined.

(** C5, as stated, fails at a root whose path ends in a slash.  The
    argument [/home/u/repo] is a symbolic link whose target is written
    [/x/.git/]; line 113 takes the target as it is, so the root walked is
    [/x/.git/], a directory named [.git].  [filepath.Split] gives an empty
    last element for it, line 151 leaves the rule untested, and the file
    [foo.txt] inside [.git] is handed to the index. *)
Lemma root_ending_in_slash_not_tested :
  skip_rule ".git" = true
  /\ filepath_Split "/x/.git/" = ("/x/.git/", "")
  /\ main git_link_env (flags false "") ["/home/u/repo"] ∅
     = (Returned,
        [ECreate "/home/u/.csearchindex";
         EAddPaths ["/x/.git/"];
         ELog (LogIndex "/x/.git/");
         EOpen "/x/.git/foo.txt";
         EAdd "/x/.git/foo.txt" (RawReader (String.list_byte_of_string "x"));
         EClose "/x/.git/foo.txt";
         ELog LogFlush;
         EFlush "/home/u/.csearchindex";
         ELog LogDone]).
Proof. repeat split. Qed.

(** A directory with [a.txt], [.hidden/b.txt], [c~] and [.git/foo.txt]:
    only [a.txt] is handed to the index. *)
Example walk_hidden_and_backup :
  snd (walk [] "/src"
         (directory [(".git", Ok (directory [("foo.txt", Ok (reg_file "x"))]));
                     (".hidden", Ok (directory [("b.txt", Ok (reg_file "skip me"))]));
                     ("a.txt", Ok (reg_file "hello"));
                     ("c~", Ok (reg_file "skip me too"))]))
  = [EOpen "/src/a.txt";
     EAdd "/src/a.txt" (RawReader (String.list_byte_of_string "hello"));
     EClose "/src/a.txt"].
Proof. by vm_compute. Qed.

(** ** The trace of a run *)

Lemma resolve_arg_events E arg : Forall is_log (snd (resolve_arg E arg)).
Proof.
  unfold resolve_arg. destruct (filepath_Abs E arg) as [a|err].
  - destruct (os_Readlink E a) as [s|?]; [case_decide|]; constructor.
  - by repeat constructor.
Qed.

Lemma resolve_args_events E args : Forall is_log (snd (resolve_args E args)).
Proof.
  induction args as [|arg rest IH]; [constructor|].
  change (resolve_args E (arg :: rest))
    with (do a <- resolve_arg E arg ;; do l <- resolve_args E rest ;; ret (a :: l)).
  rewrite !snd_bind. cbn [ret snd]. rewrite app_nil_r.
  apply Forall_app. split; [apply resolve_arg_events | done].
Qed.

Lemma canonicalize_events E args : Forall is_log (snd (canonicalize E args)).
Proof.
  unfold canonicalize. rewrite snd_bind. cbn [ret snd]. rewrite app_nil_r.
  apply resolve_args_events.
Qed.

Lemma get_encodings_cases E names encodings :
  (exists found, get_encodings E names encodings = (Some found, [])
      /\ forall enc, enc ∈ filter (λ enc, enc ≠ "") (strings_TrimSpace <$> names) ->
                     exists e, htmlindex_Get E enc = Ok e)
  \/ (exists enc err, get_encodings E names encodings = (None, [ELog (LogEncErr enc err)])
      /\ enc ∈ filter (λ enc, enc ≠ "") (strings_TrimSpace <$> names)
      /\ htmlindex_Get E enc = Error err).
Proof.
  revert encodings. induction names as [|name rest IH]; intros encodings.
  { left. exists encodings. split; [done|]. by intros enc ?%elem_of_nil. }
  cbn [get_encodings fmap list_fmap]. case_decide as Hempty.
  { rewrite filter_cons_False by naive_solver. apply IH. }
  rewrite filter_cons_True by done.
  destruct (htmlindex_Get E (strings_TrimSpace name)) as [e|err] eqn:Hget.
  - destruct (IH (encodings ++ [e])) as [(found & -> & Hall)|(enc & err & -> & Hin & Herr)].
    + left. exists found. split; [done|].
      intros enc [->|Hin]%elem_of_cons; [by exists e | by apply Hall].
    + right. exists enc, err. split; [done|]. split; [by right | done].
  - right. exists (strings_TrimSpace name), err. split; [done|]. split; [by left | done].
Qed.

Lemma resolve_encodings_unrecognized E encodingsFlag :
  unrecognized E encodingsFlag ->
  exists enc err,
    resolve_encodings E encodingsFlag = (None, [ELog (LogEncErr enc err)])
    /\ enc ∈ encoding_names encodingsFlag /\ htmlindex_Get E enc = Error err.
Proof.
  intros (enc & err & Hin & Herr). unfold resolve_encodings.
  destruct (get_encodings_cases E (strings_Split "," encodingsFlag) [])
    as [(found & _ & Hall)|(enc' & err' & Heq & Hin' & Herr')].
  - destruct (Hall enc Hin) as [e He]. congruence.
  - by exists enc', err'.
Qed.

Lemma resolve_encodings_events E encodingsFlag :
  Forall is_log (snd (resolve_encodings E encodingsFlag))
  /\ (forall encodings, fst (resolve_encodings E encodingsFlag) = Some encodings ->
        snd (resolve_encodings E encodingsFlag) = []).
Proof.
  unfold resolve_encodings.
  destruct (get_encodings_cases E (strings_Split "," encodingsFlag) [])
    as [(found & -> & _)|(enc & err & -> & _)]; split; try done.
  by repeat constructor.
Qed.

(** The trace of [build], laid out. *)
Lemma build_trace E fl disk args :
  let cz := canonicalize E args in
  let en := resolve_encodings E (encodingsFlag fl) in
  let master := index_File E in
  let file := target_file E fl disk in
  build E fl disk args
  = match fst en with
    | None => (Returned, snd cz ++ snd en)
    | Some encodings =>
        let wr := walk_roots E encodings (fst cz) in
        if fst wr then
          (Panicked, snd cz ++ ECreate file :: EAddPaths (fst cz) :: snd wr)
        else
          (Returned,
           snd cz ++ ECreate file :: EAddPaths (fst cz) :: snd wr
             ++ ELog LogFlush :: EFlush file
             :: (if reset_mode E fl disk then [] else publish_events master file)
             ++ [ELog LogDone])
    end.
Proof.
  intros cz en master file. subst file. unfold build, target_file, reset_mode.
  fold cz en master.
  pose proof (resolve_encodings_events E (encodingsFlag fl)) as [_ Hen].
  fold en in Hen.
  destruct cz as [cargs cevs], en as [[encodings|] eevs]; unfold bind; cbn [fst snd].
  - assert (eevs = []) as -> by exact (Hen encodings eq_refl).
    destruct (walk_roots E encodings cargs) as [[|] wevs]; cbn [fst snd ret emit app].
    + by rewrite app_nil_r.
    + by destruct (match disk !! master with Some _ => resetFlag fl | None => true end).
  - cbn [ret snd fst]. by rewrite app_nil_r.
Qed.

(** ** The index files along a trace *)

Lemma run_event_frame w e name :
  name ∉ targets e -> w_disk (run_event w e) !! name = w_disk w !! name.
Proof.
  destruct e; simpl; intros Hn; try done.
  - apply lookup_delete_ne. set_solver.
  - apply lookup_insert_ne. set_solver.
  - by destruct (reader_content r).
  - apply lookup_insert_ne. set_solver.
  - destruct (w_disk w !! src1) as [[|old]|]; try done.
    destruct (w_disk w !! src2) as [[|new]|]; try done.
    simpl. apply lookup_insert_ne. set_solver.
  - destruct (w_disk w !! oldpath); [|done]. simpl.
    rewrite lookup_insert_ne, lookup_delete_ne; set_solver.
Qed.

Lemma run_events_app w evs1 evs2 :
  run_events w (evs1 ++ evs2) = run_events (run_events w evs1) evs2.
Proof. apply foldl_app. Qed.

Lemma run_events_frame w evs name :
  Forall (λ e, name ∉ targets e) evs ->
  w_disk (run_events w evs) !! name = w_disk w !! name.
Proof.
  intros H. revert w. induction H as [|e evs He Hevs IH]; intros w; [done|].
  simpl. rewrite IH. by apply run_event_frame.
Qed.

Lemma is_log_walk_event e : is_log e -> walk_event e.
Proof. by destruct e. Qed.

Lemma walk_event_targets e name : walk_event e -> name ∉ targets e.
Proof. destruct e; simpl; try done; intros _; apply not_elem_of_nil. Qed.

(** Log lines leave the index files and the builder as they are. *)
Lemma run_events_logs w evs : Forall is_log evs -> run_events w evs = w.
Proof.
  intros H. revert w. induction H as [|e evs He Hevs IH]; intros w; [done|].
  simpl. rewrite IH. by destruct e.
Qed.

(** A walk leaves the index files as they are. *)
Lemma run_events_walk w evs :
  Forall walk_event evs -> w_disk (run_events w evs) = w_disk w.
Proof.
  intros H. revert w. induction H as [|e evs He Hevs IH]; intros w; [done|].
  simpl. rewrite IH. destruct e; try done. simpl. by destruct (reader_content r).
Qed.

Lemma append_ne (s t : string) : t ≠ "" -> s +:+ t ≠ s.
Proof.
  intros Ht. induction s as [|c s IH]; [done|].
  change (String c (s +:+ t) ≠ String c s). congruence.
Qed.

(** The published index, the staging file and the merged file are three
    different names. *)
Lemma index_names_distinct (master : string) :
  master +:+ "~" ≠ master
  /\ (master +:+ "~") +:+ "~" ≠ master
  /\ (master +:+ "~") +:+ "~" ≠ master +:+ "~".
Proof.
  split; [by apply append_ne|]. split; [|by apply append_ne].
  rewrite string_app_assoc. by apply append_ne.
Qed.

(** ** How main reaches the build *)

Lemma main_build E fl args disk :
  listFlag fl = false -> ~ (resetFlag fl = true /\ args = []) ->
  main E fl args disk
  = match roots_of E args disk with
    | None => (Fatal, [])
    | Some roots => build E fl disk roots
    end.
Proof.
  intros Hlist Hdel. unfold main, roots_of. rewrite Hlist.
  case_bool_decide as Hargs.
  - destruct (resetFlag fl); [naive_solver|]. simpl.
    by destruct (index_Paths disk (index_File E)).
  - by rewrite andb_false_r.
Qed.

(** ** PublishCoordinator, incremental mode *)

Lemma print_paths_events paths : Forall is_print (snd (print_paths paths)).
Proof. induction paths as [|arg rest IH]; by constructor. Qed.

(** A -list run prints the recorded roots and does nothing else. *)
Lemma main_list E fl args disk :
  listFlag fl = true -> Forall is_print (snd (main E fl args disk)).
Proof.
  intros Hlist. unfold main. rewrite Hlist.
  destruct (index_Paths disk (index_File E)) as [paths|]; [|constructor].
  rewrite snd_bind. cbn [ret snd]. rewrite app_nil_r. apply print_paths_events.
Qed.

Lemma is_print_targets e name : is_print e -> name ∉ targets e.
Proof. destruct e; simpl; try done; intros _; apply not_elem_of_nil. Qed.

Lemma build_incremental E fl disk roots :
  reset_mode E fl disk = false ->
  let master := index_File E in
  let tr := snd (build E fl disk roots) in
  Forall (staging_event (master +:+ "~")) tr
  \/ exists pre, Forall (staging_event (master +:+ "~")) pre
                 /\ tr = pre ++ flush_and_publish master.
Proof.
  intros Hmode master tr. subst tr. rewrite build_trace.
  unfold target_file. rewrite Hmode. fold master.
  pose proof (canonicalize_events E roots) as Hcz.
  pose proof (resolve_encodings_events E (encodingsFlag fl)) as [Hen _].
  assert (forall evs, Forall is_log evs -> Forall (staging_event (master +:+ "~")) evs)
    as Hlog.
  { intros evs Hevs. eapply Forall_impl; [exact Hevs|].
    intros e He. left. by apply is_log_walk_event. }
  destruct (fst (resolve_encodings E (encodingsFlag fl))) as [encodings|].
  - pose proof (walk_roots_events E encodings (fst (canonicalize E roots))) as Hwr.
    assert (Forall (staging_event (master +:+ "~"))
              (snd (canonicalize E roots) ++ ECreate (master +:+ "~")
                 :: EAddPaths (fst (canonicalize E roots))
                 :: snd (walk_roots E encodings (fst (canonicalize E roots)))))
      as Hpre.
    { apply Forall_app. split; [by apply Hlog|].
      constructor; [right; by left|]. constructor; [right; right; by eexists|].
      eapply Forall_impl; [exact Hwr|]. intros e He. by left. }
    cbv zeta. destruct (fst (walk_roots E encodings _)); cbn [snd].
    + by left.
    + right. eexists. split; [exact Hpre|].
      unfold flush_and_publish. by rewrite <- app_assoc.
  - left. cbn [snd]. apply Forall_app. split; by apply Hlog.
Qed.

Ltac solve_notin :=
  repeat (apply not_elem_of_cons; split; [congruence|]); apply not_elem_of_nil.

Lemma staging_event_frame master e :
  staging_event (master +:+ "~") e -> master ∉ targets e.
Proof.
  intros [He|[->|[paths ->]]].
  - by apply walk_event_targets.
  - simpl. pose proof (index_names_distinct master) as (H & _). solve_notin.
  - apply not_elem_of_nil.
Qed.

Lemma publish_run w master oldix :
  w_disk w !! master = Some (Written oldix) ->
  let staging := master +:+ "~" in
  let w' := run_events w (flush_and_publish master) in
  w_pending w' = w_pending w
  /\ w_disk w' !! master = Some (Written (merge_index oldix (w_pending w)))
  /\ w_disk w' !! staging = None
  /\ w_disk w' !! (staging +:+ "~") = None.
Proof.
  intros Hold staging w'. subst w'.
  destruct (index_names_distinct master) as (H1 & H2 & H3). fold staging in H1, H2, H3.
  unfold flush_and_publish, publish_events. fold staging.
  cbn [app run_events foldl]. cbn [run_event w_disk w_pending].
  rewrite (lookup_insert_ne _ staging master) by done. rewrite Hold.
  rewrite lookup_insert_eq. cbn [w_disk w_pending].
  rewrite lookup_delete_ne by done. rewrite lookup_insert_eq. cbn [w_disk w_pending].
  split; [done|]. split; [by rewrite lookup_insert_eq|]. split.
  - rewrite lookup_insert_ne by done. rewrite lookup_delete_ne by done.
    by rewrite lookup_delete_eq.
  - rewrite lookup_insert_ne by done. by rewrite lookup_delete_eq.
Qed.

(** C1: the incremental publish.  When a published index exists and
    -reset is not given, a run that flushes goes on with exactly: merge
    of the published index and the staging file (published path plus
    [~]) into the merged file (published path plus [~~]), removal of the
    staging file, rename of the merged file onto the published path.
    After any part of the run that does not include that rename, the
    published index is the file it was at the start: no step before the
    rename deletes or changes it.  After the whole run the published path
    holds the merge, and the staging and merged files are gone. *)
Theorem incremental_publish E fl args disk old :
  resetFlag fl = false -> disk !! index_File E = Some old ->
  let master := index_File E in
  let staging := master +:+ "~" in
  let merged := staging +:+ "~" in
  let tr := snd (main E fl args disk) in
  (forall name, EFlush name ∈ tr ->
     exists pre,
       tr = pre ++ [EFlush staging; ELog (LogMerge master staging);
                    EMerge merged master staging; ERemove staging;
                    ERename merged master; ELog LogDone]
       /\ Forall (λ e, master ∉ targets e) pre)
  /\ (forall pre suf, tr = pre ++ suf -> ERename merged master ∉ pre ->
        w_disk (run_events (start disk) pre) !! master = Some old)
  /\ (forall name oldix, EFlush name ∈ tr -> old = Written oldix ->
        let w := run_events (start disk) tr in
        w_disk w !! master = Some (Written (merge_index oldix (w_pending w)))
        /\ w_disk w !! staging = None
        /\ w_disk w !! merged = None).
Proof.
  intros Hreset Hold master staging merged tr.
  assert (reset_mode E fl disk = false) as Hmode.
  { unfold reset_mode. by rewrite Hold. }
  set (before := λ e, staging_event staging e \/ is_print e).
  assert (forall evs name, Forall before evs -> EFlush name ∉ evs) as Hnoflush.
  { intros evs name Hevs Hin. eapply Forall_forall in Hevs; [|exact Hin].
    by destruct Hevs as [[?|[?|[? ?]]]|?]. }
  assert (forall evs, Forall before evs -> Forall (λ e, master ∉ targets e) evs)
    as Hframe.
  { intros evs Hevs. eapply Forall_impl; [exact Hevs|].
    intros e [He|He]; [by apply staging_event_frame | by apply is_print_targets]. }
  assert (Forall before tr
          \/ exists pre, Forall before pre /\ tr = pre ++ flush_and_publish master)
    as Htr.
  { subst tr. destruct (listFlag fl) eqn:Hlist.
    { left. eapply Forall_impl; [by apply main_list|]. intros e He. by right. }
    rewrite main_build; [|done|intros [? _]; congruence].
    destruct (roots_of E args disk) as [roots|]; [|left; constructor].
    destruct (build_incremental E fl disk roots Hmode) as [H|(pre & Hpre & H)].
    - left. eapply Forall_impl; [exact H|]. intros e He. by left.
    - right. exists pre. split; [|done].
      eapply Forall_impl; [exact Hpre|]. intros e He. by left. }
  split; [|split].
  - intros name Hin. destruct Htr as [Htr|(pre & Hpre & Htr)].
    { by apply Hnoflush in Hin. }
    exists (pre ++ [ELog LogFlush]). split.
    + rewrite Htr. unfold flush_and_publish, publish_events.
      by rewrite <- app_assoc.
    + apply Forall_app. split; [by apply Hframe|].
      repeat constructor. apply not_elem_of_nil.
  - intros pre suf Hsplit Hren.
    assert (Forall (λ e, master ∉ targets e \/ e = ERename merged master) tr) as Hall.
    { destruct Htr as [Htr|(pre' & Hpre' & ->)].
      - eapply Forall_impl; [by apply Hframe|]. naive_solver.
      - apply Forall_app. split.
        + eapply Forall_impl; [by apply Hframe|]. naive_solver.
        + pose proof (index_names_distinct master) as (H1 & H2 & H3).
          unfold flush_and_publish, publish_events. fold staging merged.
          fold staging merged in H1, H2, H3.
          repeat apply Forall_cons_2; try apply Forall_nil_2;
            try (by right); left; simpl; solve_notin. }
    rewrite Hsplit in Hall. apply Forall_app in Hall as [Hall _].
    rewrite run_events_frame; [done|].
    apply Forall_forall. intros e He.
    eapply Forall_forall in Hall; [|exact He].
    destruct Hall as [?| ->]; done.
  - intros name oldix Hin -> w. subst w.
    destruct Htr as [Htr|(pre & Hpre & Htr)].
    { by apply Hnoflush in Hin. }
    rewrite Htr, run_events_app.
    set (w1 := run_events (start disk) pre).
    assert (w_disk w1 !! master = Some (Written oldix)) as Hw1.
    { unfold w1. rewrite run_events_frame; [done | by apply Hframe]. }
    destruct (publish_run w1 master oldix Hw1) as (Hp & Hm & Hs & Hg).
    fold staging in Hs, Hg. fold merged in Hg. by rewrite Hp.
Qed.

Lemma incremental_publish_witness :
  let tr := snd (main sample_env (flags false "") ["/src"] sample_disk) in
  let w := run_events (start sample_disk) tr in
  w_disk (run_events (start sample_disk) (take 11 tr)) !! "/home/u/.csearchindex"
    = Some (Written old_index)
  /\ w_disk w !! "/home/u/.csearchindex"
     = Some (Written (merge_index old_index (w_pending w)))
  /\ w_disk w !! "/home/u/.csearchindex~" = None
  /\ w_disk w !! "/home/u/.csearchindex~~" = None.
Proof.
  intros tr w.
  destruct (incremental_publish sample_env (flags false "") ["/src"] sample_disk
              (Written old_index) eq_refl eq_refl) as (_ & H2 & H3).
  split.
  - apply (H2 (take 11 tr) (drop 11 tr)); [by rewrite take_drop|].
    intros Hin. apply list_elem_of_In in Hin. vm_compute in Hin.
    repeat (destruct Hin as [Hin|Hin]; [discriminate Hin|]). exact Hin.
  - apply (H3 "/home/u/.csearchindex~" old_index); [|reflexivity].
    apply list_elem_of_In. vm_compute. do 7 right. by left.
Defined.

(** ** PublishCoordinator, direct mode *)

Lemma build_direct E fl disk roots :
  reset_mode E fl disk = true ->
  let master := index_File E in
  let tr := snd (build E fl disk roots) in
  Forall (direct_event master) tr
  /\ (forall name, ECreate name ∈ tr ->
        exists pre post, tr = pre ++ ECreate master :: post /\ Forall is_log pre).
Proof.
  intros Hmode master tr. subst tr. rewrite build_trace.
  unfold target_file. rewrite Hmode. fold master.
  pose proof (canonicalize_events E roots) as Hcz.
  pose proof (resolve_encodings_events E (encodingsFlag fl)) as [Hen _].
  assert (forall evs, Forall is_log evs -> Forall (direct_event master) evs) as Hlog.
  { intros evs Hevs. eapply Forall_impl; [exact Hevs|].
    intros e He. left. by apply is_log_walk_event. }
  assert (forall evs name, Forall is_log evs -> ECreate name ∉ evs) as Hnocreate.
  { intros evs name Hevs Hin. by eapply Forall_forall in Hevs; [|exact Hin]. }
  destruct (fst (resolve_encodings E (encodingsFlag fl))) as [encodings|].
  - pose proof (walk_roots_events E encodings (fst (canonicalize E roots))) as Hwr.
    assert (Forall (direct_event master)
              (snd (walk_roots E encodings (fst (canonicalize E roots))))) as Hwr'.
    { eapply Forall_impl; [exact Hwr|]. intros e He. by left. }
    cbv zeta. destruct (fst (walk_roots E encodings _)); cbn [snd]; split.
    + apply Forall_app. split; [by apply Hlog|].
      constructor; [right; by left|]. constructor; [right; right; left; by eexists|].
      done.
    + intros name _. by eexists _, _.
    + apply Forall_app. split; [by apply Hlog|].
      constructor; [right; by left|]. constructor; [right; right; left; by eexists|].
      apply Forall_app. split; [done|].
      constructor; [left; done|]. constructor; [by do 3 right|].
      constructor; [left; done | constructor].
    + intros name _. by eexists _, _.
  - cbn [snd]. split; [apply Forall_app; split; by apply Hlog|].
    intros name Hin. exfalso. eapply Hnocreate; [|exact Hin].
    by apply Forall_app.
Qed.

Lemma direct_event_in_place master e : direct_event master e -> in_place master e.
Proof.
  intros [He|[->|[[paths ->]| ->]]]; repeat split; try done; simpl.
  - intros name Hin. by apply (walk_event_targets e name) in He.
  - intros dst src1 src2 ->. done.
  - intros oldpath newpath ->. done.
  - by intros name ->%list_elem_of_singleton.
  - by intros name ?%elem_of_nil.
  - by intros name ->%list_elem_of_singleton.
Qed.

(** C10: direct mode.  With -reset and path arguments, or without a
    published index, the file the builder is created on is the published
    path itself; no event of the run is a merge or a rename and none
    creates, changes or removes a file other than the published index, so
    that at every point of the run every other file is as it was at the
    start (no staging file, no merged file).  When the builder is created,
    only diagnostics of path resolution were logged before, nothing was
    added yet, and from that point the published path holds the new, still
    empty file: an index that was there is overwritten in place. *)
Theorem direct_mode_in_place E fl args disk :
  (resetFlag fl = true /\ args ≠ []) \/ disk !! index_File E = None ->
  let master := index_File E in
  let tr := snd (main E fl args disk) in
  target_file E fl disk = master
  /\ Forall (in_place master) tr
  /\ (forall pre suf name, tr = pre ++ suf -> name ≠ master ->
        w_disk (run_events (start disk) pre) !! name = disk !! name)
  /\ (forall name, ECreate name ∈ tr ->
        exists pre post,
          tr = pre ++ ECreate master :: post /\ Forall is_log pre
          /\ w_disk (run_events (start disk) (pre ++ [ECreate master])) !! master
             = Some Truncated).
Proof.
  intros Hdirect master tr.
  assert (reset_mode E fl disk = true) as Hmode.
  { unfold reset_mode. destruct Hdirect as [[H _]|H]; rewrite H; [|done].
    by destruct (disk !! index_File E). }
  assert (Forall (in_place master) tr
          /\ (forall name, ECreate name ∈ tr ->
                exists pre post, tr = pre ++ ECreate master :: post
                                 /\ Forall is_log pre)) as [Hall Hcreate].
  { subst tr. destruct (listFlag fl) eqn:Hlist.
    { pose proof (main_list E fl args disk Hlist) as Hp. split.
      - eapply Forall_impl; [exact Hp|]. intros e He. repeat split.
        + intros name Hin. by apply (is_print_targets e name) in He.
        + intros dst src1 src2 ->. done.
        + intros oldpath newpath ->. done.
      - intros name Hin. by eapply Forall_forall in Hp; [|exact Hin]. }
    destruct (decide (resetFlag fl = true /\ args = [])) as [[Hr Ha]|Hdel].
    { unfold main. rewrite Hlist, Hr, Ha. cbn. split.
      - repeat constructor; try done.
        by intros name ->%list_elem_of_singleton.
      - intros name [H|H]%elem_of_cons; [done | by apply elem_of_nil in H]. }
    rewrite main_build by done.
    destruct (roots_of E args disk) as [roots|].
    - destruct (build_direct E fl disk roots Hmode) as [H1 H2]. split; [|done].
      eapply Forall_impl; [exact H1|]. apply direct_event_in_place.
    - split; [constructor|]. by intros name ?%elem_of_nil. }
  split; [|split; [|split]].
  - unfold target_file. by rewrite Hmode.
  - done.
  - intros pre suf name Hsplit Hne. rewrite Hsplit in Hall.
    apply Forall_app in Hall as [Hall _].
    rewrite run_events_frame; [done|].
    eapply Forall_impl; [exact Hall|]. intros e [He _] Hin. by apply He in Hin.
  - intros name Hin. destruct (Hcreate name Hin) as (pre & post & Htr & Hpre).
    exists pre, post. split; [done|]. split; [done|].
    rewrite run_events_app, (run_events_logs _ _ Hpre). simpl.
    apply lookup_insert_eq.
Qed.

Lemma direct_mode_in_place_witness :
  let tr := snd (main sample_env (flags true "") ["/src"] sample_disk) in
  target_file sample_env (flags true "") sample_disk = "/home/u/.csearchindex"
  /\ Forall (in_place "/home/u/.csearchindex") tr
  /\ w_disk (run_events (start sample_disk) (take 1 tr)) !! "/home/u/.csearchindex"
     = Some Truncated
  /\ Forall (in_place "/home/u/.csearchindex")
       (snd (main sample_env (flags false "") ["/src"] ∅)).
Proof.
  intros tr.
  destruct (direct_mode_in_place sample_env (flags true "") ["/src"] sample_disk)
    as (H1 & H2 & _ & H4).
  { left. split; [reflexivity | discriminate]. }
  destruct (direct_mode_in_place sample_env (flags false "") ["/src"] ∅)
    as (_ & H2' & _).
  { right. reflexivity. }
  split; [exact H1|]. split; [exact H2|]. split; [|exact H2'].
  destruct (H4 "/home/u/.csearchindex") as (pre & post & Htr & Hpre & Hdisk).
  { apply list_elem_of_In. vm_compute. by left. }
  reflexivity.
Defined.

(** ** Unknown encoding names *)

(** C6, as stated, fails: the names of -encodings are examined only
    after the two early exits of [main].  With -reset and no paths the
    published index is removed and the run returns without ever looking
    at the names; with -list the roots are printed.  In both runs nothing
    is logged. *)
Lemma unknown_encoding_not_examined :
  unrecognized sample_env "bogus"
  /\ main sample_env (flags true "bogus") [] sample_disk
     = (Returned, [ERemove "/home/u/.csearchindex"])
  /\ sample_disk !! "/home/u/.csearchindex" = Some (Written old_index)
  /\ w_disk (run_events (start sample_disk)
               (snd (main sample_env (flags true "bogus") [] sample_disk)))
       !! "/home/u/.csearchindex" = None
  /\ main sample_env
       {| listFlag := true; resetFlag := false; verboseFlag := false;
          encodingsFlag := "bogus" |} ["/src"] sample_disk
     = (Returned, [EPrint "/old"]).
Proof.
  split.
  - exists "bogus", "htmlindex: invalid encoding name". split; [|done].
    apply list_elem_of_In. vm_compute. by left.
  - repeat split; by vm_compute.
Qed.

(** C6, amended: in a run that is neither -list nor -reset without
    paths, an unrecognized name in -encodings stops the run before the
    builder is created: the run consists of log lines only, so no index
    file is created, changed or removed and nothing is indexed; when the
    paths to index are known (given as arguments, or read from the
    published index), [main] returns and the last line logged reports the
    first unrecognized name. *)
Theorem unknown_encoding_aborts E fl args disk :
  unrecognized E (encodingsFlag fl) ->
  listFlag fl = false -> ~ (resetFlag fl = true /\ args = []) ->
  let tr := snd (main E fl args disk) in
  Forall is_log tr
  /\ run_events (start disk) tr = start disk
  /\ (is_Some (roots_of E args disk) ->
      fst (main E fl args disk) = Returned
      /\ exists pre enc err,
           tr = pre ++ [ELog (LogEncErr enc err)]
           /\ enc ∈ encoding_names (encodingsFlag fl)
           /\ htmlindex_Get E enc = Error err).
Proof.
  intros Hbad Hlist Hdel tr.
  apply resolve_encodings_unrecognized in Hbad as (enc & err & Hen & Hin & Herr).
  assert (forall roots, build E fl disk roots
            = (Returned, snd (canonicalize E roots) ++ [ELog (LogEncErr enc err)]))
    as Hbuild.
  { intros roots. rewrite build_trace. by rewrite Hen. }
  assert (Forall is_log tr) as Hlogs.
  { subst tr. rewrite main_build by done.
    destruct (roots_of E args disk) as [roots|]; [|constructor].
    rewrite Hbuild. apply Forall_app. split; [apply canonicalize_events|].
    by repeat constructor. }
  split; [done|]. split; [by apply run_events_logs|].
  intros [roots Hroots]. subst tr. rewrite main_build, Hroots, Hbuild by done.
  split; [done|]. by exists (snd (canonicalize E roots)), enc, err.
Qed.

Lemma unknown_encoding_aborts_witness :
  let tr := snd (main sample_env (flags false "us-ascii, bogus") ["/src"] sample_disk) in
  Forall is_log tr
  /\ run_events (start sample_disk) tr = start sample_disk
  /\ fst (main sample_env (flags false "us-ascii, bogus") ["/src"] sample_disk)
     = Returned.
Proof.
  intros tr.
  destruct (unknown_encoding_aborts sample_env (flags false "us-ascii, bogus")
              ["/src"] sample_disk) as (H1 & H2 & H3).
  - exists "bogus", "htmlindex: invalid encoding name". split; [|reflexivity].
    apply list_elem_of_In. vm_compute. right. by left.
  - reflexivity.
  - intros [H _]. discriminate H.
  - split; [exact H1|]. split; [exact H2|].
    destruct H3 as [H3 _]; [by eexists | exact H3].
Defined.

(** ** Errors while a file is opened *)

(** C3 on the code: the error of [openEncoded] ends the walk of the root
    it occurs in ([/r1/c] is not visited), but the value [filepath.Walk]
    returns is dropped: nothing is logged, the next root [/r2] is walked
    and indexed, and the run goes on to flush.  What was added before
    ([/r1/a]) stays queued.  The same holds for an open error
    ([locked_file]) and for a rewind error ([unseekable_file]). *)
Theorem open_error_does_not_stop_the_run :
  main (two_roots_env locked_file) (flags false "") ["/r1"; "/r2"] ∅
  = (Returned,
     [ECreate "/home/u/.csearchindex"; EAddPaths ["/r1"; "/r2"];
      ELog (LogIndex "/r1");
      EOpen "/r1/a"; EAdd "/r1/a" (RawReader [Byte.x78]); EClose "/r1/a";
      ELog (LogIndex "/r2");
      EOpen "/r2/d"; EAdd "/r2/d" (RawReader [Byte.x77]); EClose "/r2/d";
      ELog LogFlush; EFlush "/home/u/.csearchindex"; ELog LogDone])
  /\ main (two_roots_env (unseekable_file "y")) (flags false "us-ascii")
       ["/r1"; "/r2"] ∅
  = (Returned,
     [ECreate "/home/u/.csearchindex"; EAddPaths ["/r1"; "/r2"];
      ELog (LogIndex "/r1");
      EOpen "/r1/a"; EAdd "/r1/a" (DecodedReader seven_bit [Byte.x78]);
      EClose "/r1/a";
      EOpen "/r1/b";
      ELog (LogIndex "/r2");
      EOpen "/r2/d"; EAdd "/r2/d" (DecodedReader seven_bit [Byte.x77]);
      EClose "/r2/d";
      ELog LogFlush; EFlush "/home/u/.csearchindex"; ELog LogDone]).
Proof. split; by vm_compute. Qed.

(** In general: an error of [openEncoded] is what the callback returns,
    without a log line, and it ends the loop over the directory. *)
Lemma walkFn_open_error encodings path n e :
  skipped path = false -> regular n = true ->
  fst (openEncoded path (n_file n) encodings) = Error e ->
  fst (walkFn encodings path (Some n) None) = WErr path e
  /\ Forall (λ ev, ~ is_log ev) (snd (walkFn encodings path (Some n) None)).
Proof.
  intros Hs Hreg Herr. rewrite walkFn_not_skipped, Hreg by done.
  rewrite fst_bind, snd_bind, Herr. cbn [ret fst snd]. rewrite app_nil_r.
  split; [done|].
  destruct (openEncoded_events path (n_file n) encodings) as [-> | ->];
    repeat constructor; auto.
Qed.

(** C9 on the code: when a rewind fails, [openEncoded] returns the error
    and the handle it opened stays open: neither [openEncoded] nor the
    callback closes it.  Here [/r/f] is left open. *)
Theorem rewind_error_leaks_handle :
  openEncoded "/r/f" (n_file (unseekable_file "y")) [seven_bit]
  = (Error "illegal seek", [EOpen "/r/f"])
  /\ walkFn [seven_bit] "/r/f" (Some (unseekable_file "y")) None
     = (WErr "/r/f" "illegal seek", [EOpen "/r/f"])
  /\ open_handles (snd (walkFn [seven_bit] "/r/f" (Some (unseekable_file "y")) None))
     = ["/r/f"]
  /\ open_handles
       (snd (main (two_roots_env (unseekable_file "y")) (flags false "us-ascii")
               ["/r1"; "/r2"] ∅))
     = ["/r1/b"].
Proof. repeat split; by vm_compute. Qed.

(** In general: any failing rewind leaves the handle open. *)
Lemma openEncoded_rewind_error path f encodings err :
  f_open_err f = None -> probe f encodings 0 None = Error err ->
  openEncoded path f encodings = (Error err, [EOpen path]).
Proof. intros Hopen Hprobe. unfold openEncoded. by rewrite Hopen, Hprobe. Qed.

(** On the other paths the handle is closed, or was never opened. *)
Lemma walkFn_closes_handle encodings path info err :
  (forall n msg, info = Some n -> probe (n_file n) encodings 0 None ≠ Error msg) ->
  open_handles (snd (walkFn encodings path info err)) = [].
Proof.
  intros Hprobe. destruct (skipped path) eqn:Hs.
  { rewrite walkFn_skipped by done. done. }
  rewrite walkFn_not_skipped by done.
  destruct err as [msg|]; [done|]. destruct info as [n|]; [|done].
  destruct (regular n); [|done].
  unfold openEncoded. destruct (f_open_err (n_file n)); [done|].
  specialize (Hprobe n). 
  destruct (probe (n_file n) encodings 0 None) as [[found|]|msg];
    [| |by destruct (Hprobe msg)]; cbn; by rewrite decide_True.
Qed.

(** ** Traversal errors *)

(** C8, as stated, fails: the skip rule is applied before the error is
    looked at.  A directory [.secret] that cannot be read is pruned by
    the rule like any other hidden directory, and nothing is logged for
    it. *)
Lemma hidden_unreadable_directory_not_logged :
  IsDir unreadable_dir = true
  /\ walkFn [] "/src/.secret" (Some unreadable_dir) (Some "permission denied")
     = (WSkipDir, [])
  /\ walk [] "/src"
       (directory [(".secret", Ok unreadable_dir); ("a.txt", Ok (reg_file "hello"))])
     = (WNil,
        [EOpen "/src/a.txt";
         EAdd "/src/a.txt" (RawReader (String.list_byte_of_string "hello"));
         EClose "/src/a.txt"]).
Proof. repeat split; by vm_compute. Qed.

(** C8, amended: on an entry whose base name does not match the skip
    rule, a traversal error is logged and the callback returns nil, so
    that the entry is skipped and the walk goes on: after a name whose
    [Lstat] failed the loop over the directory continues with the next
    name, a directory that cannot be read ends its own walk with nil, and
    a root whose [Lstat] failed ends [filepath.Walk] with nil.  An entry
    whose base name matches the skip rule and whose [FileInfo] is there is
    skipped by the rule, with or without an error, and nothing is logged
    for it. *)
Theorem traversal_error_logged_unless_skipped E encodings :
  (forall path info err, skipped path = false ->
     walkFn encodings path info (Some err) = (WNil, [ELog (LogPathErr path err)]))
  /\ (forall walk_child path name err rest,
       skipped (filepath_Join path name) = false ->
       walk_entries walk_child encodings path ((name, Error err) :: rest)
       = (fst (walk_entries walk_child encodings path rest),
          ELog (LogPathErr (filepath_Join path name) err)
            :: snd (walk_entries walk_child encodings path rest)))
  /\ (forall path mode f err entries,
       IsDir (Node mode f (Some err) entries) = true -> skipped path = false ->
       walk encodings path (Node mode f (Some err) entries)
       = (WNil, [ELog (LogPathErr path err)]))
  /\ (forall root err, os_Lstat E root = Error err -> skipped root = false ->
       filepath_Walk E encodings root = (WNil, [ELog (LogPathErr root err)]))
  /\ (forall path n err, skipped path = true ->
       walkFn encodings path (Some n) err
       = (if IsDir n then WSkipDir else WNil, [])).
Proof.
  split; [|split; [|split; [|split]]].
  - intros path info err Hs. by rewrite walkFn_not_skipped.
  - intros walk_child path name err rest Hs.
    cbn [walk_entries]. by rewrite walkFn_not_skipped.
  - intros path mode f err entries Hdir Hs.
    change (walk encodings path (Node mode f (Some err) entries))
      with (if negb (IsDir (Node mode f (Some err) entries))
            then walkFn encodings path (Some (Node mode f (Some err) entries)) None
            else do err1 <- walkFn encodings path
                              (Some (Node mode f (Some err) entries)) (Some err) ;;
                 ret err1).
    rewrite Hdir. cbn [negb]. by rewrite walkFn_not_skipped.
  - intros root err Hstat Hs. unfold filepath_Walk. rewrite Hstat.
    by rewrite walkFn_not_skipped.
  - intros path n err Hs. rewrite walkFn_skipped by done. by destruct (IsDir n).
Qed.

Lemma traversal_error_logged_unless_skipped_witness :
  filepath_Walk sample_env [] "/nowhere"
  = (WNil, [ELog (LogPathErr "/nowhere" "no such file or directory")])
  /\ walk [] "/src/locked" unreadable_dir
     = (WNil, [ELog (LogPathErr "/src/locked" "permission denied")])
  /\ walkFn [] "/src/.secret" (Some unreadable_dir) (Some "permission denied")
     = (WSkipDir, []).
Proof.
  destruct (traversal_error_logged_unless_skipped sample_env [])
    as (_ & _ & H3 & H4 & H5).
  split; [|split].
  - apply H4; reflexivity.
  - apply H3; reflexivity.
  - apply (H5 "/src/.secret" unreadable_dir). reflexivity.
Defined.

(** A slip in the callback, left out of C8 as amended: when the entry
    with the traversal error has a base name that matches the skip rule
    and no [FileInfo] (its [Lstat] failed), the callback calls [IsDir] on
    the nil [FileInfo] it was given: the run panics.  This happens for a root
    that does not exist ([/home/u/.cache]) and for a directory entry whose
    [Lstat] fails ([/src/.#lock]); nothing is logged for the entry, nothing
    is flushed, and the index file created by the builder is left
    empty. *)
Theorem traversal_error_on_hidden_name_panics :
  main missing_root_env (flags false "") ["/home/u/.cache"] ∅
  = (Panicked,
     [ECreate "/home/u/.csearchindex"; EAddPaths ["/home/u/.cache"];
      ELog (LogIndex "/home/u/.cache")])
  /\ main missing_root_env (flags false "") ["/src"] ∅
  = (Panicked,
     [ECreate "/home/u/.csearchindex"; EAddPaths ["/src"];
      ELog (LogIndex "/src")])
  /\ w_disk (run_events (start ∅)
               (snd (main missing_root_env (flags false "") ["/src"] ∅)))
       !! "/home/u/.csearchindex" = Some Truncated.
Proof. repeat split; by vm_compute. Qed.

(** * Further properties *)

(** ** The modes of main *)

Lemma print_paths_snd paths : snd (print_paths paths) = EPrint <$> paths.
Proof.
  induction paths as [|arg rest IH]; [done|].
  change (print_paths (arg :: rest))
    with (run emit (EPrint arg) ;; print_paths rest).
  rewrite snd_bind. cbn [emit snd app fmap list_fmap]. by rewrite IH.
Qed.

(** X1: -list comes first.  Whatever the other flags and the arguments
    are, a -list run prints the roots recorded in the published index,
    one per line and in their recorded order, and returns; it changes no
    index file and nothing in the builder.  Without a complete index at
    the published path the run ends in the index package, having done
    nothing. *)
Theorem list_mode_prints_roots E fl args disk :
  listFlag fl = true ->
  main E fl args disk
  = match index_Paths disk (index_File E) with
    | Some paths => (Returned, EPrint <$> paths)
    | None => (Fatal, [])
    end
  /\ forall w, run_events w (snd (main E fl args disk)) = w.
Proof.
  intros Hlist. unfold main. rewrite Hlist.
  destruct (index_Paths disk (index_File E)) as [paths|]; [|done].
  assert ((run print_paths paths ;; ret Returned) = (Returned, EPrint <$> paths))
    as ->.
  { unfold bind. cbn [ret fst snd]. by rewrite app_nil_r, print_paths_snd. }
  split; [done|]. intros w. cbn [snd].
  induction paths as [|arg rest IH]; [done|]. exact IH.
Qed.

Lemma list_mode_prints_roots_witness :
  main sample_env
    {| listFlag := true; resetFlag := true; verboseFlag := true;
       encodingsFlag := "bogus" |} ["/src"] sample_disk
  = (Returned, [EPrint "/old"]).
Proof.
  destruct (list_mode_prints_roots sample_env
              {| listFlag := true; resetFlag := true; verboseFlag := true;
                 encodingsFlag := "bogus" |} ["/src"] sample_disk eq_refl)
    as [H _].
  exact H.
Defined.

(** X2: -reset without paths, whatever the other flags but -list.  When
    -cpuprofile names a file that cannot be created the run ends in
    [log.Fatal] at line 85 with that error, before anything is removed.
    Otherwise the run removes the published index and returns (between the
    creation of the profile file and the deferred calls, with
    -cpuprofile): afterwards there is no file at the published path, every
    other file but the profile file (a staging file left behind included)
    is as it was, and the names of -encodings were not looked at and
    nothing was logged. *)
Theorem reset_without_paths_removes_index E P fl disk :
  listFlag fl = false -> resetFlag fl = true ->
  let res := cindex E P fl [] disk in
  let w := run_pevents (start disk) (snd res) in
  let profile := cpuProfile P in
  let master := index_File E in
  match (if decide (profile = "") then None else os_Create P profile) with
  | Some err => res = (Fatal, [PFatal err]) /\ w_disk w = disk
  | None =>
      res = (Returned,
             if decide (profile = "") then [PMain (ERemove master)]
             else [PCreate profile; PStartCPUProfile; PMain (ERemove master);
                   PStopCPUProfile; PClose])
      /\ w_disk w !! master = None
      /\ (forall name, name ≠ master -> (profile ≠ "" -> name ≠ profile) ->
            w_disk w !! name = disk !! name)
  end.
Proof.
  intros Hlist Hreset res w profile master. subst res w profile master.
  unfold cindex, main. rewrite Hlist, Hreset. cbn [orb andb].
  destruct (decide (cpuProfile P = "")) as [Hp|Hp].
  - rewrite bool_decide_eq_true_2 by done. cbn.
    split; [done|]. split; [apply lookup_delete_eq|].
    intros name Hne _. by apply lookup_delete_ne.
  - rewrite bool_decide_eq_false_2 by done.
    destruct (os_Create P (cpuProfile P)) as [err|]; [done|]. cbn.
    split; [done|]. split; [apply lookup_delete_eq|].
    intros name Hne Hnp. rewrite lookup_delete_ne by done.
    apply lookup_insert_ne. intros Heq. by apply Hnp.
Qed.

Lemma reset_without_paths_removes_index_witness :
  let disk : gmap string file_state :=
    <[ "/home/u/.csearchindex~" := Truncated ]> sample_disk in
  let w := run_pevents (start disk)
             (snd (cindex sample_env profile_ok (flags true "bogus") [] disk)) in
  w_disk w !! "/home/u/.csearchindex" = None
  /\ w_disk w !! "/home/u/.csearchindex~" = Some Truncated
  /\ cindex sample_env profile_denied (flags true "bogus") [] disk
     = (Fatal, [PFatal "permission denied"])
  /\ cindex sample_env no_profile (flags true "bogus") [] disk
     = (Returned, [PMain (ERemove "/home/u/.csearchindex")]).
Proof.
  intros disk w.
  pose proof (reset_without_paths_removes_index sample_env profile_ok
                (flags true "bogus") disk eq_refl eq_refl) as (_ & H2 & H3).
  pose proof (reset_without_paths_removes_index sample_env profile_denied
                (flags true "bogus") disk eq_refl eq_refl) as (H4 & _).
  pose proof (reset_without_paths_removes_index sample_env no_profile
                (flags true "bogus") disk eq_refl eq_refl) as (H5 & _).
  split; [exact H2|]. split; [|split; [exact H4 | exact H5]].
  subst w. rewrite H3; [reflexivity | discriminate | discriminate].
Defined.

(** X3: without paths (and without -reset) the run is the run one gets
    by naming the recorded roots of the published index as arguments. *)
Theorem no_paths_reindexes_recorded_roots E fl disk paths :
  listFlag fl = false -> resetFlag fl = false ->
  index_Paths disk (index_File E) = Some paths -> paths ≠ [] ->
  main E fl [] disk = main E fl paths disk.
Proof.
  intros Hlist Hreset Hpaths Hne. unfold main. rewrite Hlist, Hreset, Hpaths.
  cbn [andb]. rewrite bool_decide_eq_true_2 by done.
  by rewrite bool_decide_eq_false_2 by done.
Qed.

Lemma no_paths_reindexes_recorded_roots_witness :
  main sample_env (flags false "") [] sample_disk
  = main sample_env (flags false "") ["/old"] sample_disk.
Proof.
  apply (no_paths_reindexes_recorded_roots sample_env (flags false "") sample_disk
           ["/old"]); [reflexivity | reflexivity | reflexivity | discriminate].
Defined.

(** ** PathCanonicalizer, further *)

Lemma canonicalize_Sorted E args : Sorted str_le (fst (canonicalize E args)).
Proof. rewrite canonicalize_fst. apply drop_empty_Sorted, sort_Strings_Sorted. Qed.

Lemma canonicalize_Permutation E args :
  fst (canonicalize E args)
  ≡ₚ filter (λ s, s ≠ "") ((λ arg, fst (resolve_arg E arg)) <$> args).
Proof.
  by rewrite canonicalize_filter, sort_Strings_Permutation, resolve_args_map.
Qed.

(** The output is determined by its elements. *)
Lemma canonicalize_determined E args E' args' :
  filter (λ s, s ≠ "") ((λ arg, fst (resolve_arg E arg)) <$> args)
  ≡ₚ filter (λ s, s ≠ "") ((λ arg, fst (resolve_arg E' arg)) <$> args') ->
  fst (canonicalize E args) = fst (canonicalize E' args').
Proof.
  intros Hp. apply (Sorted_unique str_le); try apply canonicalize_Sorted.
  by rewrite !canonicalize_Permutation.
Qed.

(** X4: the paths handed to indexing do not depend on the order in which
    the arguments were given. *)
Theorem canonicalize_order_independent E args args' :
  args ≡ₚ args' -> fst (canonicalize E args) = fst (canonicalize E args').
Proof. intros Hp. apply canonicalize_determined. by rewrite Hp. Qed.

Lemma canonicalize_order_independent_witness :
  fst (canonicalize chain_env ["x"; "A"; "/b"])
  = fst (canonicalize chain_env ["/b"; "x"; "A"]).
Proof.
  apply canonicalize_order_independent.
  change ["/b"; "x"; "A"] with (["/b"] ++ ["x"; "A"]).
  change ["x"; "A"; "/b"] with (["x"; "A"] ++ ["/b"]).
  apply Permutation_app_comm.
Defined.

Lemma resolve_args_snd E args :
  snd (resolve_args E args) = resolve_failures E args.
Proof.
  induction args as [|arg rest IH]; [done|].
  change (resolve_args E (arg :: rest))
    with (do a <- resolve_arg E arg ;; do l <- resolve_args E rest ;; ret (a :: l)).
  rewrite !snd_bind. cbn [ret snd]. rewrite app_nil_r, IH.
  unfold resolve_failures. cbn [omap list_omap]. unfold resolve_arg.
  destruct (filepath_Abs E arg) as [a|err]; [|done].
  by destruct (os_Readlink E a) as [s|?]; [case_decide|].
Qed.

Lemma canonicalize_snd E args :
  snd (canonicalize E args) = resolve_failures E args.
Proof.
  unfold canonicalize. rewrite snd_bind. cbn [ret snd].
  by rewrite app_nil_r, resolve_args_snd.
Qed.

Lemma resolve_arg_unresolved E arg :
  ~ resolvable E arg -> fst (resolve_arg E arg) = "".
Proof.
  unfold resolvable, resolve_arg. destruct (filepath_Abs E arg) as [a|err]; [|done].
  intros H. destruct H. by exists a.
Qed.

(** X6: a path whose absolute form cannot be computed costs one log
    line and nothing else.  The diagnostics are the failures, in the order
    of the arguments, and the paths handed to indexing are those of the
    run without the failing arguments. *)
Theorem unresolved_paths_logged_and_dropped E args :
  snd (canonicalize E args) = resolve_failures E args
  /\ fst (canonicalize E args) = fst (canonicalize E (filter (resolvable E) args))
  /\ (Forall (resolvable E) args -> snd (canonicalize E args) = []).
Proof.
  split; [apply canonicalize_snd|]. split.
  - apply canonicalize_determined.
    induction args as [|arg rest IH]; [done|].
    destruct (decide (resolvable E arg)) as [Hok|Hbad].
    + rewrite (filter_cons_True (resolvable E)) by done. cbn [fmap list_fmap].
      destruct (decide (fst (resolve_arg E arg) = "")) as [He|He].
      * rewrite !(filter_cons_False (λ s, s ≠ "")) by naive_solver. exact IH.
      * rewrite !(filter_cons_True (λ s, s ≠ "")) by done. by rewrite IH.
    + rewrite (filter_cons_False (resolvable E)) by done. cbn [fmap list_fmap].
      rewrite (filter_cons_False (λ s, s ≠ ""));
        [exact IH | intros H; apply H; by apply resolve_arg_unresolved].
  - intros Hall. rewrite canonicalize_snd. unfold resolve_failures.
    induction Hall as [|arg rest [a Ha] _ IH]; [done|].
    cbn [omap list_omap]. by rewrite Ha.
Qed.

(** X5: when every argument has an absolute form, the whole run does
    not depend on the order of the arguments. *)
Theorem main_order_independent E fl args args' disk :
  args ≡ₚ args' -> Forall (resolvable E) args ->
  main E fl args disk = main E fl args' disk.
Proof.
  intros Hp Hall.
  assert (Forall (resolvable E) args') as Hall' by (by rewrite <- Hp).
  assert (canonicalize E args = canonicalize E args') as Hcz.
  { apply injective_projections.
    - by apply canonicalize_determined; rewrite Hp.
    - rewrite !canonicalize_snd. unfold resolve_failures.
      transitivity (@nil event).
      + clear Hp Hall'. induction Hall as [|arg rest [a Ha] _ IH]; [done|].
        cbn [omap list_omap]. by rewrite Ha.
      + symmetry. clear Hp Hall. induction Hall' as [|arg rest [a Ha] _ IH]; [done|].
        cbn [omap list_omap]. by rewrite Ha. }
  assert (bool_decide (args = []) = bool_decide (args' = [])) as Hnil.
  { apply bool_decide_ext. split; intros ->.
    - by apply Permutation_nil_l in Hp.
    - by apply Permutation_nil_r in Hp. }
  unfold main. rewrite Hnil.
  destruct (listFlag fl); [done|].
  destruct (resetFlag fl && bool_decide (args' = [])); [done|].
  destruct (bool_decide (args' = [])); [done|].
  unfold build. by rewrite Hcz.
Qed.

Lemma main_order_independent_witness :
  main sample_env (flags false "") ["/src"; "/lib"] ∅
  = main sample_env (flags false "") ["/lib"; "/src"] ∅.
Proof.
  apply main_order_independent.
  - apply perm_swap.
  - repeat constructor; by eexists.
Defined.

(** ** EncodingResolver, further *)

Lemma get_encodings_spec E names encodings :
  match fst (get_encodings E names encodings) with
  | Some found =>
      exists es, found = encodings ++ es
        /\ Forall2 (λ name e, htmlindex_Get E name = Ok e)
             (filter (λ enc, enc ≠ "") (strings_TrimSpace <$> names)) es
        /\ snd (get_encodings E names encodings) = []
  | None =>
      exists pre enc err post,
        filter (λ enc, enc ≠ "") (strings_TrimSpace <$> names) = pre ++ enc :: post
        /\ Forall (λ name, exists e, htmlindex_Get E name = Ok e) pre
        /\ htmlindex_Get E enc = Error err
        /\ snd (get_encodings E names encodings) = [ELog (LogEncErr enc err)]
  end.
Proof.
  revert encodings. induction names as [|name rest IH]; intros encodings.
  { exists []. by rewrite app_nil_r. }
  cbn [get_encodings fmap list_fmap]. case_decide as Hempty.
  { rewrite filter_cons_False by naive_solver. apply IH. }
  rewrite filter_cons_True by done.
  destruct (htmlindex_Get E (strings_TrimSpace name)) as [e|err] eqn:Hget.
  - specialize (IH (encodings ++ [e])).
    destruct (fst (get_encodings E rest (encodings ++ [e]))) as [found|].
    + destruct IH as (es & -> & Hall & Hsnd). exists (e :: es).
      split; [by rewrite <- app_assoc|]. split; [by constructor | done].
    + destruct IH as (pre & enc & err & post & Hsplit & Hpre & Herr & Hsnd).
      exists (strings_TrimSpace name :: pre), enc, err, post.
      split; [by rewrite Hsplit|]. split; [|done].
      constructor; [by exists e | done].
  - eexists [], (strings_TrimSpace name), err, _. by repeat split.
Qed.

(** X7: the candidate list is read in the order it is written.  The
    names are the pieces of -encodings between commas, with the white
    space around them trimmed and the empty ones left out; the run gets a
    candidate list exactly when every name is recognized, and the list
    then holds the encoding of each name, in the order of the names.
    Nothing is logged. *)
Theorem resolve_encodings_in_order E encodingsFlag encodings :
  fst (resolve_encodings E encodingsFlag) = Some encodings
  <-> Forall2 (λ name e, htmlindex_Get E name = Ok e)
        (encoding_names encodingsFlag) encodings.
Proof.
  unfold resolve_encodings, encoding_names.
  pose proof (get_encodings_spec E (strings_Split "," encodingsFlag) []) as Hspec.
  destruct (fst (get_encodings E (strings_Split "," encodingsFlag) [])) as [found|].
  - destruct Hspec as (es & -> & Hall & _). cbn [app]. split.
    + by intros [= <-].
    + intros Hall'. f_equal. revert encodings Hall'.
      induction Hall as [|name e names es' He _ IH]; intros encodings Hall'.
      * by apply Forall2_nil_inv_l in Hall'.
      * apply Forall2_cons_inv_l in Hall' as (e' & encs' & He' & Hrest & ->).
        f_equal; [congruence | by apply IH].
  - destruct Hspec as (pre & enc & err & post & Hsplit & _ & Herr & _).
    split; [done|]. rewrite Hsplit. intros Hall.
    apply Forall2_app_inv_l in Hall as (l1 & l2 & _ & Hall & _).
    apply Forall2_cons_inv_l in Hall as (e & ? & He & _). congruence.
Qed.

Lemma resolve_encodings_in_order_witness :
  fst (resolve_encodings sample_env " x-user-defined ,, us-ascii")
  = Some [eight_bit; seven_bit]
  /\ encoding_names " x-user-defined ,, us-ascii" = ["x-user-defined"; "us-ascii"].
Proof.
  split; [|reflexivity].
  apply resolve_encodings_in_order. repeat constructor.
Defined.

(** X8: the name that stops the run is the first unrecognized one, in
    the order of -encodings; it is the only thing logged, and the names
    before it were all recognized. *)
Theorem first_unrecognized_name_is_logged E encodingsFlag :
  unrecognized E encodingsFlag ->
  exists pre enc err post,
    encoding_names encodingsFlag = pre ++ enc :: post
    /\ Forall (λ name, exists e, htmlindex_Get E name = Ok e) pre
    /\ htmlindex_Get E enc = Error err
    /\ resolve_encodings E encodingsFlag = (None, [ELog (LogEncErr enc err)]).
Proof.
  intros (bad & badly & Hin & Hbad). unfold resolve_encodings, encoding_names in *.
  pose proof (get_encodings_spec E (strings_Split "," encodingsFlag) []) as Hspec.
  destruct (get_encodings E (strings_Split "," encodingsFlag) [])
    as [[found|] evs]; cbn [fst snd] in Hspec.
  - destruct Hspec as (es & _ & Hall & _). exfalso.
    apply list_elem_of_lookup in Hin as [i Hi].
    destruct (Forall2_lookup_l _ _ _ _ _ Hall Hi) as (e & _ & He). congruence.
  - destruct Hspec as (pre & enc & err & post & Hsplit & Hpre & Herr & ->).
    by exists pre, enc, err, post.
Qed.

Lemma first_unrecognized_name_is_logged_witness :
  exists pre enc err post,
    encoding_names "us-ascii, latin9 ,klingon" = pre ++ enc :: post
    /\ Forall (λ name, exists e, htmlindex_Get sample_env name = Ok e) pre
    /\ htmlindex_Get sample_env enc = Error err
    /\ resolve_encodings sample_env "us-ascii, latin9 ,klingon"
       = (None, [ELog (LogEncErr enc err)]).
Proof.
  apply first_unrecognized_name_is_logged.
  exists "klingon", "htmlindex: invalid encoding name". split; [|reflexivity].
  apply list_elem_of_In. vm_compute. right. right. by left.
Defined.

(** ** EncodingDetector, further *)

Lemma last_match_cons enc rest data found :
  from_option Some (if validates enc data then Some enc else found)
    (last_match rest data)
  = from_option Some found (last_match (enc :: rest) data).
Proof.
  unfold last_match. destruct (validates enc data) eqn:Hv.
  - rewrite (filter_cons_True _ enc) by done.
    destruct (filter _ rest) as [|e l] eqn:Hf; [done|].
    rewrite last_cons_cons, (last_cons e l). by destruct (last l).
  - by rewrite (filter_cons_False _ enc) by (by rewrite Hv).
Qed.

Lemma probe_Ok f encodings k found x :
  probe f encodings k found = Ok x ->
  x = from_option Some found (last_match encodings (f_data f)).
Proof.
  revert k found. induction encodings as [|enc rest IH]; intros k found; simpl.
  { by intros [= <-]. }
  destruct (f_seek_err f k); [done|]. intros ->%IH. apply last_match_cons.
Qed.

Lemma probe_Error f encodings k found err :
  probe f encodings k found = Error err
  <-> exists i, (i < length encodings)%nat
        /\ f_seek_err f (k + i)%nat = Some err
        /\ forall j, (j < i)%nat -> f_seek_err f (k + j)%nat = None.
Proof.
  revert k found. induction encodings as [|enc rest IH]; intros k found; simpl.
  { split; [done|]. intros (i & Hi & _). lia. }
  destruct (f_seek_err f k) as [e|] eqn:Hseek.
  - split.
    + intros [= ->]. exists 0%nat. rewrite Nat.add_0_r.
      split; [lia|]. split; [done|]. intros j Hj. lia.
    + intros ([|i] & _ & Hi & Hbefore).
      * rewrite Nat.add_0_r in Hi. congruence.
      * specialize (Hbefore 0%nat ltac:(lia)). rewrite Nat.add_0_r in Hbefore.
        congruence.
  - rewrite IH. split.
    + intros (i & Hi & Herr & Hbefore). exists (S i).
      split; [lia|]. split; [by rewrite Nat.add_succ_r|].
      intros [|j] Hj; [by rewrite Nat.add_0_r|].
      rewrite Nat.add_succ_r. apply Hbefore. lia.
    + intros ([|i] & Hi & Herr & Hbefore).
      * rewrite Nat.add_0_r in Herr. congruence.
      * exists i. split; [lia|]. split; [by rewrite Nat.add_succ_r in Herr|].
        intros j Hj. specialize (Hbefore (S j) ltac:(lia)).
        by rewrite Nat.add_succ_r in Hbefore.
Qed.

(** X9: what [openEncoded] returns when it returns a stream.  Exactly
    one handle was opened; the stream is over the file's own bytes; it is
    either the handle as it is, and then no candidate validates, or the
    decoder of a candidate of the list that validates, the last such one;
    in both cases reading it to the end succeeds.  A candidate that does
    not validate is never used. *)
Theorem openEncoded_ok_reader path f encodings r :
  fst (openEncoded path f encodings) = Ok r ->
  snd (openEncoded path f encodings) = [EOpen path]
  /\ is_Some (reader_content r)
  /\ ((r = RawReader (f_data f)
       /\ Forall (λ e, validates e (f_data f) = false) encodings)
      \/ exists found,
           r = DecodedReader found (f_data f)
           /\ last_match encodings (f_data f) = Some found
           /\ found ∈ encodings
           /\ validates found (f_data f) = true).
Proof.
  unfold openEncoded. destruct (f_open_err f); [done|].
  rewrite fst_bind, snd_bind. cbn [emit fst snd app].
  destruct (probe f encodings 0 None) as [x|err] eqn:Hprobe; [|done].
  apply probe_Ok in Hprobe. cbn [from_option] in Hprobe.
  assert (forall found, last_match encodings (f_data f) = Some found ->
            found ∈ encodings /\ validates found (f_data f) = true) as Hlast.
  { intros found Hf. unfold last_match in Hf.
    apply last_Some_elem_of, list_elem_of_filter in Hf as [? ?]. done. }
  destruct (last_match encodings (f_data f)) as [found|] eqn:Hm;
    cbn [from_option] in Hprobe; subst x; cbn [ret fst snd]; intros [= <-].
  - destruct (Hlast found eq_refl) as [Hin Hv]. split; [done|]. split.
    + unfold validates in Hv. cbn [reader_content].
      by destruct (decode found (f_data f)).
    + right. by exists found.
  - split; [done|]. split; [by eexists|]. left. split; [done|].
    unfold last_match in Hm. apply Forall_forall. intros e He.
    destruct (validates e (f_data f)) eqn:Hv; [|done]. exfalso.
    assert (e ∈ filter (λ e, validates e (f_data f) = true) encodings) as Hin
      by (by apply list_elem_of_filter).
    destruct (filter _ encodings) as [|e' l]; [by apply elem_of_nil in Hin|].
    rewrite last_cons in Hm. by destruct (last l).
Qed.

Lemma openEncoded_ok_reader_witness :
  let high := plain_file [Byte.x68; Byte.xe9] in
  snd (openEncoded "/f" high [eight_bit; seven_bit]) = [EOpen "/f"]
  /\ is_Some (reader_content (DecodedReader eight_bit (f_data high)))
  /\ last_match [eight_bit; seven_bit] (f_data high) = Some eight_bit.
Proof.
  intros high.
  destruct (openEncoded_ok_reader "/f" high [eight_bit; seven_bit]
              (DecodedReader eight_bit (f_data high)) eq_refl)
    as (H1 & H2 & [[Hraw _]|(found & Hfound & Hlast & _)]).
  - discriminate Hraw.
  - injection Hfound as <-. split; [exact H1|]. split; [exact H2 | exact Hlast].
Defined.

(** X10: when [openEncoded] fails.  It returns an error exactly when the
    file cannot be opened, and then no handle exists, or when one of the
    rewinds that follow the probes fails: there are as many rewinds as
    candidates, the error is that of the first one that fails, and the
    handle stays open.  With no candidate there is no rewind. *)
Theorem openEncoded_error_cases path f encodings err :
  fst (openEncoded path f encodings) = Error err
  <-> (f_open_err f = Some err
       \/ (f_open_err f = None
           /\ exists i, (i < length encodings)%nat
                /\ f_seek_err f i = Some err
                /\ forall j, (j < i)%nat -> f_seek_err f j = None)).
Proof.
  unfold openEncoded. destruct (f_open_err f) as [e|] eqn:Hopen.
  - cbn [ret fst]. split.
    + intros [= ->]. by left.
    + intros [[= ->]|[? _]]; done.
  - rewrite fst_bind. cbn [emit fst].
    pose proof (probe_Error f encodings 0 None err) as Hprobe. cbn [Nat.add] in Hprobe.
    destruct (probe f encodings 0 None) as [[found|]|err'] eqn:Hp; cbn [ret fst].
    + split; [done|]. intros [?|[_ H]]; [done|]. by apply Hprobe in H.
    + split; [done|]. intros [?|[_ H]]; [done|]. by apply Hprobe in H.
    + split.
      * intros [= ->]. right. split; [done|]. by apply Hprobe.
      * intros [?|[_ H]]; [done|]. apply Hprobe in H. congruence.
Qed.

Lemma openEncoded_events_cases path f encodings :
  snd (openEncoded path f encodings)
  = match f_open_err f with Some _ => [] | None => [EOpen path] end.
Proof.
  unfold openEncoded. destruct (f_open_err f); [done|].
  rewrite snd_bind. cbn [emit snd app].
  by destruct (probe f encodings 0 None) as [[?|]|?].
Qed.

(** ** Walker, further *)

(** The callback, case by case. *)
Lemma walkFn_cases encodings path info err :
  walkFn encodings path info err
  = if skipped path then
      (match info with
       | None => WPanic
       | Some n => if IsDir n then WSkipDir else WNil
       end, [])
    else
      match err, info with
      | Some e, _ => (WNil, [ELog (LogPathErr path e)])
      | None, None => (WNil, [])
      | None, Some n =>
          if regular n then
            match fst (openEncoded path (n_file n) encodings) with
            | Ok rd =>
                (WNil, snd (openEncoded path (n_file n) encodings)
                         ++ [EAdd path rd; EClose path])
            | Error e =>
                (WErr path e, snd (openEncoded path (n_file n) encodings))
            end
          else (WNil, [])
      end.
Proof.
  destruct (skipped path) eqn:Hs.
  { by rewrite walkFn_skipped. }
  rewrite walkFn_not_skipped by done.
  destruct err as [e|]; [done|]. destruct info as [n|]; [|done].
  destruct (regular n); [|done]. unfold bind.
  destruct (fst (openEncoded path (n_file n) encodings)); cbn [ret emit fst snd app].
  - done.
  - by rewrite app_nil_r.
Qed.

Lemma walk_unfold encodings path mode f readdir_err entries :
  let info := Node mode f readdir_err entries in
  walk encodings path info
  = if negb (IsDir info) then walkFn encodings path (Some info) None
    else
      do err1 <- walkFn encodings path (Some info) readdir_err ;;
      match readdir_err, err1 with
      | None, WNil =>
          walk_entries (fun p c => walk encodings p c) encodings path entries
      | _, _ => ret err1
      end.
Proof. done. Qed.

(** A directory that is not skipped and could be read: its walk is the
    loop over its names. *)
Lemma walk_descend encodings path mode f entries :
  IsDir (Node mode f None entries) = true -> skipped path = false ->
  walk encodings path (Node mode f None entries)
  = walk_entries (fun p c => walk encodings p c) encodings path entries.
Proof.
  intros Hdir Hs. rewrite walk_unfold. cbv zeta. rewrite Hdir. cbn [negb].
  rewrite walkFn_cases, Hs, (IsDir_not_regular _ Hdir). unfold bind. cbn [fst snd app].
  by destruct (walk_entries _ encodings path entries).
Qed.

Lemma walk_elem_dir encodings path mode f readdir_err entries e :
  let info := Node mode f readdir_err entries in
  e ∈ snd (walk encodings path info) ->
  e ∈ snd (walkFn encodings path (Some info)
             (if IsDir info then readdir_err else None))
  \/ (IsDir info = true /\ readdir_err = None /\ skipped path = false
      /\ e ∈ snd (walk_entries (fun p c => walk encodings p c) encodings path entries)).
Proof.
  cbv zeta. rewrite walk_unfold. cbv zeta.
  set (info := Node mode f readdir_err entries).
  destruct (IsDir info) eqn:Hdir; cbn [negb]; [|by left].
  rewrite snd_bind. intros [He|He]%elem_of_app; [by left|]. right.
  destruct readdir_err as [msg|]; [by apply elem_of_nil in He|].
  rewrite walkFn_cases in He. destruct (skipped path) eqn:Hs.
  { cbn [fst] in He. rewrite Hdir in He. by apply elem_of_nil in He. }
  rewrite (IsDir_not_regular _ Hdir) in He. by cbn [fst] in He.
Qed.

Lemma walkFn_add encodings path info err q r :
  EAdd q r ∈ snd (walkFn encodings path info err) ->
  q = path /\ skipped path = false
  /\ exists n, info = Some n /\ regular n = true
       /\ fst (openEncoded path (n_file n) encodings) = Ok r.
Proof.
  rewrite walkFn_cases. destruct (skipped path); [by intros ?%elem_of_nil|].
  destruct err as [e|].
  { cbn [snd]. intros [=]%list_elem_of_singleton. }
  destruct info as [n|]; [|by intros ?%elem_of_nil].
  destruct (regular n) eqn:Hreg; [|by intros ?%elem_of_nil].
  rewrite openEncoded_events_cases.
  destruct (fst (openEncoded path (n_file n) encodings)) as [rd|e] eqn:Hopen;
    destruct (f_open_err (n_file n)); cbn [snd app]; intros He;
    repeat match goal with
           | H : _ ∈ _ :: _ |- _ => apply elem_of_cons in H as [H|H]
           | H : _ ∈ [] |- _ => by apply elem_of_nil in H
           end; try discriminate.
  all: injection He as -> ->.
  all: split; [done|].
  all: split; [done|].
  all: by exists n.
Qed.

(** X11: what the walk hands to the index.  Every add of a walk is the
    add of an entry of the tree that is a plain file ([Mode()&ModeType ==
    0]: no directory, symbolic link, device, pipe or socket), reached
    through directories that could be read and entries that do not match
    the skip rule; it is made under the path walked to the entry, with the
    stream [openEncoded] returned for that entry's file. *)
Theorem walk_adds_regular_files encodings info :
  forall path q r,
    EAdd q r ∈ snd (walk encodings path info) ->
    exists n, reachable path info q n /\ regular n = true
              /\ fst (openEncoded q (n_file n) encodings) = Ok r.
Proof.
  induction info as [mode f readdir_err entries IH] using fnode_ind.
  intros path q r [He|(Hdir & -> & Hs & He)]%walk_elem_dir.
  - apply walkFn_add in He as (-> & Hs & n & [= <-] & Hreg & Hopen).
    eexists. split; [by constructor | done].
  - apply walk_entries_elem in He as [(name & err & _ & He)|(name & child & Hin & He)].
    + by apply walkFn_add in He as (_ & _ & n & [=] & _).
    + rewrite Forall_forall in IH. specialize (IH _ Hin). cbn in IH.
      destruct (IH _ _ _ He) as (n & Hreach & Hreg & Hopen).
      exists n. split; [|done]. by eapply reachable_below.
Qed.

Lemma walk_adds_regular_files_witness :
  exists n, reachable "/src" sample_tree "/src/a.txt" n /\ regular n = true
            /\ fst (openEncoded "/src/a.txt" (n_file n) [])
               = Ok (RawReader (String.list_byte_of_string "hello")).
Proof.
  apply (walk_adds_regular_files [] sample_tree "/src" "/src/a.txt").
  apply list_elem_of_In. vm_compute. right. by left.
Defined.

Lemma walk_nondir_not_SkipDir encodings path info :
  IsDir info = false -> fst (walk encodings path info) ≠ WSkipDir.
Proof.
  intros Hdir. destruct info as [mode f readdir_err entries].
  rewrite walk_unfold. cbv zeta. rewrite Hdir. cbn [negb].
  rewrite walkFn_cases. destruct (skipped path); [by rewrite Hdir|].
  destruct (regular _); [|done].
  by destruct (fst (openEncoded _ _ _)).
Qed.

Lemma walk_entries_not_SkipDir walk_child encodings path entries :
  (forall p c, IsDir c = false -> fst (walk_child p c) ≠ WSkipDir) ->
  fst (walk_entries walk_child encodings path entries) ≠ WSkipDir.
Proof.
  intros Hchild. induction entries as [|[name [child|err]] rest IH]; [done| |].
  - cbn [walk_entries]. rewrite fst_bind.
    destruct (fst (walk_child (filepath_Join path name) child)) eqn:Hr; try done.
    destruct (IsDir child) eqn:Hdir; [done|]. by apply Hchild in Hr.
  - cbn [walk_entries]. rewrite fst_bind.
    by destruct (fst (walkFn encodings (filepath_Join path name) None (Some err))).
Qed.

(** Only a directory that matches the skip rule makes its walk return
    [SkipDir]. *)
Lemma walk_SkipDir_skipped encodings path info :
  fst (walk encodings path info) = WSkipDir -> skipped path = true.
Proof.
  destruct info as [mode f readdir_err entries].
  destruct (IsDir (Node mode f readdir_err entries)) eqn:Hdir;
    [|intros H; by apply walk_nondir_not_SkipDir in H].
  rewrite walk_unfold. cbv zeta. rewrite Hdir. cbn [negb].
  rewrite fst_bind, walkFn_cases. destruct (skipped path); [done|].
  rewrite (IsDir_not_regular _ Hdir).
  destruct readdir_err as [msg|]; [done|]. cbn [fst].
  intros H. exfalso. revert H. apply walk_entries_not_SkipDir.
  intros p c. apply walk_nondir_not_SkipDir.
Qed.

Lemma walk_entries_WNil walk_child encodings path entries name child :
  fst (walk_entries walk_child encodings path entries) = WNil ->
  (name, Ok child) ∈ entries ->
  (fst (walk_child (filepath_Join path name) child) = WNil
   \/ fst (walk_child (filepath_Join path name) child) = WSkipDir)
  /\ forall e, e ∈ snd (walk_child (filepath_Join path name) child) ->
               e ∈ snd (walk_entries walk_child encodings path entries).
Proof.
  induction entries as [|[name0 [child0|err]] rest IH]; intros Hnil Hin.
  - by apply elem_of_nil in Hin.
  - cbn [walk_entries] in *. rewrite fst_bind in Hnil. rewrite snd_bind.
    cbv beta in *.
    apply elem_of_cons in Hin as [[= <- <-]|Hin].
    + split; [|intros e He; apply elem_of_app; by left].
      destruct (fst (walk_child (filepath_Join path name) child)); auto; done.
    + assert (fst (walk_entries walk_child encodings path rest) = WNil
              /\ forall e, e ∈ snd (walk_entries walk_child encodings path rest) ->
                    e ∈ snd (walk_child (filepath_Join path name0) child0)
                        ++ snd (match fst (walk_child (filepath_Join path name0) child0)
                                      return Eff walkret with
                                | WNil => walk_entries walk_child encodings path rest
                                | WSkipDir =>
                                    if IsDir child0
                                    then walk_entries walk_child encodings path rest
                                    else ret (fst (walk_child (filepath_Join path name0) child0))
                                | _ => ret (fst (walk_child (filepath_Join path name0) child0))
                                end)) as [Hrest Hsub].
      { destruct (fst (walk_child (filepath_Join path name0) child0)); try done.
        - split; [done|]. intros e He. apply elem_of_app. by right.
        - destruct (IsDir child0); [|done].
          split; [done|]. intros e He. apply elem_of_app. by right. }
      destruct (IH Hrest Hin) as [H1 H2]. split; [done|].
      intros e He. by apply Hsub, H2.
  - cbn [walk_entries] in *. rewrite fst_bind in Hnil. rewrite snd_bind.
    cbv beta in *.
    apply elem_of_cons in Hin as [[=]|Hin].
    destruct (fst (walkFn encodings (filepath_Join path name0) None (Some err)));
      try done.
    + destruct (IH Hnil Hin) as [H1 H2]. split; [done|].
      intros e He. apply elem_of_app. right. by apply H2.
    + destruct (IH Hnil Hin) as [H1 H2]. split; [done|].
      intros e He. apply elem_of_app. right. by apply H2.
Qed.

Lemma reachable_not_skipped path info q n :
  reachable path info q n -> skipped path = false.
Proof. by destruct 1. Qed.

(** X12: the walk is complete.  When the walk of an entry returns nil,
    every plain file below it that is reached through directories that
    could be read and entries that do not match the skip rule was handed
    to the index, under its path and with the stream [openEncoded] gives
    for it. *)
Theorem walk_complete encodings path info q n :
  reachable path info q n ->
  fst (walk encodings path info) = WNil -> regular n = true ->
  exists r, fst (openEncoded q (n_file n) encodings) = Ok r
            /\ EAdd q r ∈ snd (walk encodings path info).
Proof.
  induction 1 as [path info Hs|path mode f entries name child q n Hs Hdir Hin Hreach IH];
    intros Hnil Hreg.
  - assert (IsDir info = false) as Hdir.
    { destruct (IsDir info) eqn:Hdir; [|done].
      apply IsDir_not_regular in Hdir. congruence. }
    destruct info as [mode f readdir_err entries].
    rewrite walk_unfold in *. cbv zeta in *. rewrite Hdir in *. cbn [negb] in *.
    rewrite walkFn_cases, Hs, Hreg in *.
    destruct (fst (openEncoded path _ encodings)) as [rd|e]; [|done].
    exists rd. split; [done|]. cbn [snd]. apply elem_of_app. right. by left.
  - rewrite walk_descend in * by done.
    destruct (walk_entries_WNil _ _ _ _ _ _ Hnil Hin) as [[Hc|Hc] Hevs].
    + destruct (IH Hc Hreg) as (r & Hopen & Hadd). exists r. split; [done|].
      by apply Hevs.
    + apply walk_SkipDir_skipped in Hc.
      apply reachable_not_skipped in Hreach. congruence.
Qed.

Lemma walk_complete_witness :
  exists r, fst (openEncoded "/src/a.txt" (n_file (reg_file "hello")) []) = Ok r
            /\ EAdd "/src/a.txt" r ∈ snd (walk [] "/src" sample_tree).
Proof.
  apply (walk_complete [] "/src" sample_tree "/src/a.txt" (reg_file "hello")).
  - eapply reachable_below; [reflexivity | reflexivity | |].
    + apply list_elem_of_In. right. left. reflexivity.
    + apply reachable_here. reflexivity.
  - reflexivity.
  - reflexivity.
Defined.

(** X14: a root whose own base name matches the skip rule is not
    indexed.  When the root exists, [filepath.Walk] on it returns nil
    without an event: nothing is logged, opened or added, whether the
    root is a file or a directory. *)
Theorem hidden_root_indexes_nothing E encodings root info :
  os_Lstat E root = Ok info -> skipped root = true ->
  filepath_Walk E encodings root = (WNil, []).
Proof.
  intros Hstat Hs. unfold filepath_Walk. rewrite Hstat.
  destruct info as [mode f readdir_err entries]. rewrite walk_unfold. cbv zeta.
  rewrite !walkFn_cases, Hs.
  destruct (IsDir (Node mode f readdir_err entries)); cbn [negb]; [|done].
  by destruct readdir_err.
Qed.

Lemma hidden_root_indexes_nothing_witness :
  filepath_Walk
    {| index_File := "/home/u/.csearchindex";
       filepath_Abs := fun p => Ok p;
       os_Readlink := fun _ => Error "invalid argument";
       htmlindex_Get := fun _ => Error "htmlindex: invalid encoding name";
       os_Lstat := fun _ => Ok sample_tree |} [] "/home/u/.emacs.d"
  = (WNil, []).
Proof. apply (hidden_root_indexes_nothing _ [] _ sample_tree); reflexivity. Defined.

(** ** File handles *)

Lemma open_handles_app_nil evs1 evs2 :
  open_handles evs1 = [] -> open_handles (evs1 ++ evs2) = open_handles evs2.
Proof. unfold open_handles. intros H. by rewrite foldl_app, H. Qed.

Lemma leaks_at_most_one_ret r : leaks_at_most_one (ret r).
Proof. by left. Qed.

Lemma leaks_at_most_one_bind (m : Eff walkret) (k : walkret -> Eff walkret) :
  leaks_at_most_one m ->
  (forall q err, fst m = WErr q err -> k (fst m) = ret (fst m)) ->
  (open_handles (snd m) = [] -> leaks_at_most_one (k (fst m))) ->
  leaks_at_most_one (bind m k).
Proof.
  intros [Hm|(q & err & Hq & Hm)] Herr Hk.
  - destruct (Hk Hm) as [H|(q & err & Hq & H)].
    + left. rewrite snd_bind. by rewrite open_handles_app_nil.
    + right. exists q, err. rewrite fst_bind, snd_bind.
      by rewrite open_handles_app_nil.
  - right. exists q, err. rewrite fst_bind, snd_bind, (Herr q err Hq).
    cbn [ret fst snd]. by rewrite app_nil_r.
Qed.

Lemma walkFn_leaks encodings path info err :
  leaks_at_most_one (walkFn encodings path info err).
Proof.
  rewrite walkFn_cases. destruct (skipped path); [by left|].
  destruct err as [e|]; [by left|]. destruct info as [n|]; [|by left].
  destruct (regular n); [|by left].
  unfold openEncoded. destruct (f_open_err (n_file n)) as [e|]; [by left|].
  rewrite fst_bind, snd_bind. cbn [emit fst snd app].
  destruct (probe (n_file n) encodings 0 None) as [[found|]|msg]; cbn [ret fst snd app].
  - left. unfold open_handles. cbn. by rewrite decide_True.
  - left. unfold open_handles. cbn. by rewrite decide_True.
  - right. by exists path, msg.
Qed.

Lemma walk_entries_leaks walk_child encodings path entries :
  (forall name child, (name, Ok child) ∈ entries ->
     leaks_at_most_one (walk_child (filepath_Join path name) child)) ->
  leaks_at_most_one (walk_entries walk_child encodings path entries).
Proof.
  induction entries as [|[name [child|err]] rest IH]; intros Hchild.
  - by left.
  - cbn [walk_entries]. apply leaks_at_most_one_bind.
    + apply Hchild. by left.
    + intros q e Hq. by rewrite Hq.
    + intros _.
      assert (leaks_at_most_one (walk_entries walk_child encodings path rest)) as Hrest.
      { apply IH. intros name' child' Hin. apply Hchild. by right. }
      destruct (fst (walk_child (filepath_Join path name) child));
        try apply leaks_at_most_one_ret; [done|].
      destruct (IsDir child); [done | apply leaks_at_most_one_ret].
  - cbn [walk_entries]. apply leaks_at_most_one_bind.
    + apply walkFn_leaks.
    + intros q e Hq. by rewrite Hq.
    + intros _.
      assert (leaks_at_most_one (walk_entries walk_child encodings path rest)) as Hrest.
      { apply IH. intros name' child' Hin. apply Hchild. by right. }
      destruct (fst (walkFn encodings (filepath_Join path name) None (Some err)));
        try apply leaks_at_most_one_ret; done.
Qed.

Lemma walk_leaks encodings info :
  forall path, leaks_at_most_one (walk encodings path info).
Proof.
  induction info as [mode f readdir_err entries IH] using fnode_ind.
  intros path. rewrite walk_unfold. cbv zeta.
  destruct (IsDir (Node mode f readdir_err entries)); cbn [negb];
    [|apply walkFn_leaks].
  apply leaks_at_most_one_bind.
  - apply walkFn_leaks.
  - intros q e Hq. rewrite Hq. by destruct readdir_err.
  - intros _. destruct readdir_err; [apply leaks_at_most_one_ret|].
    destruct (fst (walkFn encodings path _ None)); try apply leaks_at_most_one_ret.
    apply walk_entries_leaks. intros name child Hin.
    rewrite Forall_forall in IH. apply (IH _ Hin).
Qed.

(** X13: file handles over a walk.  The walk of a root leaves at most
    one handle open, and only when it ends with the error of line 167 for
    the file that handle belongs to; every other handle it opened was
    closed right after its add.  A walk that returns nil leaves no handle
    open. *)
Theorem walk_leaks_at_most_one_handle E encodings root :
  let m := filepath_Walk E encodings root in
  (open_handles (snd m) = []
   \/ exists q err, fst m = WErr q err /\ open_handles (snd m) = [q])
  /\ (fst m = WNil -> open_handles (snd m) = []).
Proof.
  cbv zeta.
  assert (leaks_at_most_one (filepath_Walk E encodings root)) as Hm.
  { unfold filepath_Walk. apply leaks_at_most_one_bind.
    - destruct (os_Lstat E root); [apply walk_leaks | apply walkFn_leaks].
    - intros q e Hq. by rewrite Hq.
    - intros _. apply leaks_at_most_one_ret. }
  split; [exact Hm|]. intros Hnil.
  destruct Hm as [H|(q & err & Hq & _)]; [done | congruence].
Qed.

(** ** The order of the run *)

Lemma walkFn_file_events encodings path info err :
  Forall file_event (snd (walkFn encodings path info err)).
Proof.
  apply Forall_forall. intros e He.
  apply walkFn_elem in He as [_ [(msg & _ & ->)|(_ & n & _ & _ & He)]]; [done|].
  by destruct He as [->|[->|[r ->]]].
Qed.

Lemma walk_file_events encodings info :
  forall path, Forall file_event (snd (walk encodings path info)).
Proof.
  induction info as [mode f readdir_err entries IH] using fnode_ind.
  intros path. apply Forall_forall. intros e [He|[_ [He|He]]]%walk_elem.
  - by eapply Forall_forall in He; [|apply walkFn_file_events].
  - destruct He as (name & err & _ & He).
    by eapply Forall_forall in He; [|apply walkFn_file_events].
  - destruct He as (name & child & Hin & He).
    rewrite Forall_forall in IH. specialize (IH _ Hin). simpl in IH.
    by eapply Forall_forall in He; [|apply IH].
Qed.

Lemma filepath_Walk_file_events E encodings root :
  Forall file_event (snd (filepath_Walk E encodings root)).
Proof.
  rewrite filepath_Walk_snd. destruct (os_Lstat E root).
  - apply walk_file_events.
  - apply walkFn_file_events.
Qed.

Lemma index_lines_file_events evs : Forall file_event evs -> index_lines evs = [].
Proof.
  induction 1 as [|e evs He _ IH]; [done|].
  unfold index_lines in *. cbn [omap list_omap]. rewrite IH.
  destruct e as [| [] | | | | | | | | |]; done.
Qed.

Lemma index_lines_logs_no_index evs :
  Forall (λ e, forall arg, e ≠ ELog (LogIndex arg)) evs -> index_lines evs = [].
Proof.
  induction 1 as [|e evs He _ IH]; [done|].
  unfold index_lines in *. cbn [omap list_omap]. rewrite IH.
  destruct e as [| [] | | | | | | | | |]; try done. by destruct (He arg).
Qed.

Lemma index_lines_app evs1 evs2 :
  index_lines (evs1 ++ evs2) = index_lines evs1 ++ index_lines evs2.
Proof. apply omap_app. Qed.

Lemma index_lines_logs_of_canonicalize E roots :
  index_lines (snd (canonicalize E roots)) = [].
Proof.
  rewrite canonicalize_snd. unfold resolve_failures.
  apply index_lines_logs_no_index, Forall_forall. intros e He arg.
  apply list_elem_of_omap in He as (a & _ & He).
  destruct (filepath_Abs E a); [done|]. by injection He as <-.
Qed.

(** The trace of the loop of line 148: root by root in the order of
    [args], the line [index %s] and the walk of the root; all the roots
    unless a panic cut the loop short. *)
Lemma walk_roots_trace E encodings args :
  exists walked,
    walked `prefix_of` args
    /\ snd (walk_roots E encodings args) = concat (walk_one E encodings <$> walked)
    /\ (fst (walk_roots E encodings args) = false -> walked = args).
Proof.
  induction args as [|arg rest (walked & Hpre & Htr & Hall)].
  - by exists [].
  - rewrite walk_roots_cons. cbn [fst snd].
    destruct (fst (filepath_Walk E encodings arg)).
    4: { exists [arg]. split; [apply prefix_cons, prefix_nil|].
         split; [|done]. cbn. by rewrite !app_nil_r. }
    all: exists (arg :: walked).
    all: split; [by apply prefix_cons|].
    all: split; [|intros H; f_equal; by apply Hall].
    all: rewrite fmap_cons; cbn [concat]; unfold walk_one at 1.
    all: by rewrite Htr.
Qed.

Lemma index_lines_walk_one E encodings walked :
  index_lines (concat (walk_one E encodings <$> walked)) = walked.
Proof.
  induction walked as [|root rest IH]; [done|].
  rewrite fmap_cons. cbn [concat]. unfold walk_one at 1.
  change (ELog (LogIndex root) :: ?l) with ([ELog (LogIndex root)] ++ l).
  rewrite <- app_assoc, !index_lines_app, IH.
  by rewrite (index_lines_file_events _ (filepath_Walk_file_events E encodings root)).
Qed.

(** X16: the roots are walked in sorted order.  In a run that builds an
    index (the names of -encodings were recognized) the list of resolved
    paths is sorted, and what the run does between the recording of the
    roots and the flush is, root by root in the order of that list, the
    line [index %s] followed by the walk of the root by [filepath.Walk]:
    its diagnostics and the open, add and close of each file it hands to
    the index.  A run that returns has done so for every root of the list,
    once per occurrence, and then flushes and publishes; a run that
    panics has done so for the first roots of the list and ends there.
    The lines [index %s] of the run are those of the roots walked, in
    that order. *)
Theorem roots_walked_in_sorted_order E fl args disk roots encodings :
  listFlag fl = false -> ~ (resetFlag fl = true /\ args = []) ->
  roots_of E args disk = Some roots ->
  fst (resolve_encodings E (encodingsFlag fl)) = Some encodings ->
  let sorted := fst (canonicalize E roots) in
  let file := target_file E fl disk in
  Sorted str_le sorted
  /\ exists walked after,
       walked `prefix_of` sorted
       /\ snd (main E fl args disk)
          = snd (canonicalize E roots)
              ++ ECreate file :: EAddPaths sorted
              :: concat (walk_one E encodings <$> walked) ++ after
       /\ index_lines (snd (main E fl args disk)) = walked
       /\ (fst (main E fl args disk) = Panicked /\ after = []
           \/ fst (main E fl args disk) = Returned
              /\ walked = sorted
              /\ after = ELog LogFlush :: EFlush file
                         :: (if reset_mode E fl disk then []
                             else publish_events (index_File E) file)
                         ++ [ELog LogDone]).
Proof.
  intros Hlist Hdel Hroots Henc sorted file. subst sorted file.
  split; [apply canonicalize_Sorted|].
  rewrite main_build, Hroots, build_trace, Henc by done. cbv zeta.
  destruct (walk_roots_trace E encodings (fst (canonicalize E roots)))
    as (walked & Hpre & Htr & Hall).
  rewrite Htr.
  assert (forall after, index_lines after = [] ->
            index_lines (snd (canonicalize E roots)
                           ++ ECreate (target_file E fl disk)
                           :: EAddPaths (fst (canonicalize E roots))
                           :: concat (walk_one E encodings <$> walked) ++ after)
            = walked) as Hlines.
  { intros after Hafter.
    change (ECreate ?a :: EAddPaths ?b :: ?l) with ([ECreate a; EAddPaths b] ++ l).
    rewrite !index_lines_app, index_lines_logs_of_canonicalize,
      index_lines_walk_one, Hafter.
    cbn. by rewrite app_nil_r. }
  destruct (fst (walk_roots E encodings (fst (canonicalize E roots)))); cbn [fst snd].
  - exists walked, []. split; [done|]. split; [by rewrite app_nil_r|].
    split; [|by left]. specialize (Hlines [] eq_refl).
    by rewrite app_nil_r in Hlines.
  - eexists walked, _. split; [done|]. split; [reflexivity|].
    split; [|right; split; [done|]; split; [by apply Hall|done]].
    apply Hlines. by destruct (reset_mode E fl disk).
Qed.

Lemma roots_walked_in_sorted_order_witness :
  snd (main sample_env (flags false "") ["/src"; "/lib"; "/a"] ∅)
  = ECreate "/home/u/.csearchindex" :: EAddPaths ["/a"; "/lib"; "/src"]
    :: (walk_one sample_env [] "/a" ++ walk_one sample_env [] "/lib"
        ++ walk_one sample_env [] "/src")
    ++ [ELog LogFlush; EFlush "/home/u/.csearchindex"; ELog LogDone].
Proof.
  destruct (roots_walked_in_sorted_order sample_env (flags false "")
              ["/src"; "/lib"; "/a"] ∅ ["/src"; "/lib"; "/a"] [] eq_refl)
    as (_ & walked & after & _ & Htr & _ & [[Hp _]|(_ & -> & ->)]).
  - intros [_ Hnil]. discriminate Hnil.
  - reflexivity.
  - reflexivity.
  - vm_compute in Hp. discriminate Hp.
  - rewrite Htr. reflexivity.
Defined.

Lemma split_at_unique {A} (P : A -> Prop) (a b a' b' : list A) (x x' : A) :
  Forall (λ y, ~ P y) a -> Forall (λ y, ~ P y) b -> P x -> P x' ->
  a ++ x :: b = a' ++ x' :: b' -> a = a' /\ x = x' /\ b = b'.
Proof.
  intros Ha Hb Hx Hx'. revert a'.
  induction Ha as [|y a Hy Ha IH]; intros [|y' a'] Heq; simplify_eq/=.
  - done.
  - exfalso. eapply Forall_forall in Hb; [by apply Hb|].
    apply elem_of_app. right. by left.
  - done.
  - destruct (IH a' ltac:(done)) as (-> & -> & ->). done.
Qed.

(** The trace of a run: without a flush, or a flush of the builder's
    file with the creation of the builder before it and nothing of the
    builder after it. *)
Lemma main_flush_shape E fl args disk :
  let tr := snd (main E fl args disk) in
  Forall (λ e, ~ is_flush e) tr
  \/ (fst (main E fl args disk) = Returned
      /\ exists before after,
           tr = before ++ EFlush (target_file E fl disk) :: after
           /\ Forall (λ e, ~ is_flush e) before
           /\ ECreate (target_file E fl disk) ∈ before
           /\ Forall (λ e, ~ builder_event e) after).
Proof.
  cbv zeta.
  assert (forall evs, Forall walk_event evs -> Forall (λ e, ~ is_flush e) evs) as Hwalk.
  { intros evs Hevs. eapply Forall_impl; [exact Hevs|]. intros []; cbn; tauto. }
  assert (forall evs, Forall is_log evs -> Forall (λ e, ~ is_flush e) evs) as Hlog.
  { intros evs Hevs. eapply Forall_impl; [exact Hevs|]. intros []; cbn; tauto. }
  destruct (listFlag fl) eqn:Hlist.
  { left. eapply Forall_impl; [by apply main_list|]. intros []; cbn; tauto. }
  destruct (decide (resetFlag fl = true /\ args = [])) as [[Hr Ha]|Hdel].
  { left. unfold main. rewrite Hlist, Hr, Ha. cbn. repeat constructor. auto. }
  rewrite main_build by done.
  destruct (roots_of E args disk) as [roots|]; [|left; constructor].
  rewrite build_trace.
  pose proof (canonicalize_events E roots) as Hcz.
  pose proof (resolve_encodings_events E (encodingsFlag fl)) as [Hen _].
  destruct (fst (resolve_encodings E (encodingsFlag fl))) as [encodings|].
  - cbv zeta.
    pose proof (walk_roots_events E encodings (fst (canonicalize E roots))) as Hwr.
    destruct (fst (walk_roots E encodings _)); cbn [fst snd].
    + left. apply Forall_app. split; [by apply Hlog|].
      constructor; [auto|]. constructor; [auto|]. by apply Hwalk.
    + right. split; [done|].
      eexists (snd (canonicalize E roots) ++ ECreate (target_file E fl disk)
                :: EAddPaths (fst (canonicalize E roots))
                :: snd (walk_roots E encodings (fst (canonicalize E roots)))
                ++ [ELog LogFlush]), _.
      split; [rewrite <- !app_assoc; cbn [app]; rewrite <- !app_assoc; reflexivity|].
      split; [|split].
      * apply Forall_app. split; [by apply Hlog|].
        constructor; [auto|]. constructor; [auto|].
        apply Forall_app. split; [by apply Hwalk|]. repeat constructor. auto.
      * apply elem_of_app. right. by left.
      * destruct (reset_mode E fl disk); repeat constructor; auto.
  - left. cbn [snd]. apply Forall_app. split; by apply Hlog.
Qed.

(** X15: one flush, after everything else the builder does.  Wherever a
    flush stands in the trace of a run, it is the flush of the file the
    builder was created on, the creation comes before it, no other flush
    comes before it, and after it the builder is not used again: no add,
    no recording of roots, no second flush.  The run then returns. *)
Theorem flush_once_after_all_adds E fl args disk pre name suf :
  snd (main E fl args disk) = pre ++ EFlush name :: suf ->
  name = target_file E fl disk
  /\ fst (main E fl args disk) = Returned
  /\ ECreate name ∈ pre
  /\ Forall (λ e, ~ is_flush e) pre
  /\ Forall (λ e, ~ builder_event e) suf.
Proof.
  intros Htr.
  destruct (main_flush_shape E fl args disk)
    as [Hno|(Hret & before & after & Hsplit & Hbefore & Hcreate & Hafter)].
  - exfalso. rewrite Htr in Hno. apply Forall_app in Hno as [_ Hno].
    apply Forall_cons in Hno as [Hno _]. by apply Hno.
  - rewrite Htr in Hsplit. symmetry in Hsplit.
    assert (Forall (λ e, ~ is_flush e) after) as Hafter'.
    { eapply Forall_impl; [exact Hafter|]. intros []; cbn; tauto. }
    destruct (split_at_unique is_flush before after pre suf
                (EFlush (target_file E fl disk)) (EFlush name)
                Hbefore Hafter' I I Hsplit) as (-> & [= <-] & ->).
    repeat split; done.
Qed.

Lemma flush_once_after_all_adds_witness :
  let tr := snd (main sample_env (flags false "") ["/src"] sample_disk) in
  ECreate "/home/u/.csearchindex~" ∈ take 7 tr
  /\ Forall (λ e, ~ builder_event e) (drop 8 tr).
Proof.
  intros tr.
  destruct (flush_once_after_all_adds sample_env (flags false "") ["/src"]
              sample_disk (take 7 tr) "/home/u/.csearchindex~" (drop 8 tr) eq_refl)
    as (_ & _ & H3 & _ & H5).
  split; [exact H3 | exact H5].
Defined.

(** What a walk does to the builder: it queues the contents added. *)
Lemma run_events_walk_pending w evs :
  Forall walk_event evs ->
  run_events w evs
  = {| w_disk := w_disk w;
       w_pending := {| ix_paths := ix_paths (w_pending w);
                       ix_files := ix_files (w_pending w) ++ added evs |} |}.
Proof.
  intros H. revert w. induction H as [|e evs He _ IH]; intros w.
  { cbn. rewrite app_nil_r. by destruct w as [? []]. }
  cbn [run_events foldl]. fold (run_events (run_event w e) evs). rewrite IH.
  unfold added. cbn [omap list_omap].
  destruct e; try done; cbn [run_event].
  destruct (reader_content r); cbn; [|done]. by rewrite <- app_assoc.
Qed.

(** X17: a panic publishes nothing.  When the run ends in a panic, the
    only change on disk is the file the builder was created on, which is
    left created and unwritten; nothing was flushed, merged, renamed or
    removed.  In incremental mode that file is the staging file and the
    published index is as it was; in direct mode it is the published
    index itself, which is left empty. *)
Theorem panic_publishes_nothing E fl args disk :
  fst (main E fl args disk) = Panicked ->
  let tr := snd (main E fl args disk) in
  let w := run_events (start disk) tr in
  w_disk w = <[target_file E fl disk := Truncated]> disk
  /\ Forall (λ e, targets e = [] \/ e = ECreate (target_file E fl disk)) tr
  /\ (reset_mode E fl disk = false -> w_disk w !! index_File E = disk !! index_File E)
  /\ (reset_mode E fl disk = true -> w_disk w !! index_File E = Some Truncated).
Proof.
  intros Hpanic. cbv zeta.
  assert (exists logs paths walked,
            snd (main E fl args disk)
            = logs ++ ECreate (target_file E fl disk) :: EAddPaths paths :: walked
            /\ Forall is_log logs /\ Forall walk_event walked)
    as (logs & paths & walked & -> & Hlogs & Hwalked).
  { revert Hpanic. unfold main.
    destruct (listFlag fl).
    { by destruct (index_Paths disk (index_File E)). }
    destruct (resetFlag fl && bool_decide (args = [])); [done|].
    assert (forall roots, fst (build E fl disk roots) = Panicked ->
              exists logs paths walked,
                snd (build E fl disk roots)
                = logs ++ ECreate (target_file E fl disk) :: EAddPaths paths :: walked
                /\ Forall is_log logs /\ Forall walk_event walked) as Hbuild.
    { intros roots. rewrite build_trace.
      destruct (fst (resolve_encodings E (encodingsFlag fl))) as [encodings|]; [|done].
      cbv zeta.
      pose proof (walk_roots_events E encodings (fst (canonicalize E roots))) as Hwr.
      destruct (fst (walk_roots E encodings _)); [|done]. intros _.
      eexists _, _, _. split; [done|]. split; [apply canonicalize_events | done]. }
    destruct (bool_decide (args = [])); [|apply Hbuild].
    destruct (index_Paths disk (index_File E)); [apply Hbuild | done]. }
  assert (w_disk (run_events (start disk)
                    (logs ++ ECreate (target_file E fl disk) :: EAddPaths paths :: walked))
          = <[target_file E fl disk := Truncated]> disk) as Hdisk.
  { rewrite run_events_app, (run_events_logs _ _ Hlogs).
    cbn [run_events foldl run_event].
    change (foldl run_event ?w walked) with (run_events w walked).
    by rewrite run_events_walk. }
  rewrite Hdisk. split; [done|]. split; [|split].
  - apply Forall_app. split.
    + eapply Forall_impl; [exact Hlogs|]. intros [] ?; auto; done.
    + constructor; [by right|]. constructor; [by left|].
      eapply Forall_impl; [exact Hwalked|]. intros [] ?; auto; done.
  - intros Hmode. unfold target_file. rewrite Hmode.
    apply lookup_insert_ne, index_names_distinct.
  - intros Hmode. unfold target_file. rewrite Hmode. apply lookup_insert_eq.
Qed.

Lemma panic_publishes_nothing_witness :
  let disk : gmap string file_state := sample_disk in
  w_disk (run_events (start disk)
            (snd (main missing_root_env (flags false "") ["/home/u/.cache"] disk)))
  = <[ "/home/u/.csearchindex~" := Truncated ]> disk
  /\ w_disk (run_events (start ∅)
               (snd (main missing_root_env (flags false "") ["/home/u/.cache"] ∅)))
       !! "/home/u/.csearchindex" = Some Truncated.
Proof.
  intros disk.
  destruct (panic_publishes_nothing missing_root_env (flags false "")
              ["/home/u/.cache"] disk eq_refl) as (H1 & _).
  destruct (panic_publishes_nothing missing_root_env (flags false "")
              ["/home/u/.cache"] ∅ eq_refl) as (_ & _ & _ & H4).
  split; [exact H1 | exact (H4 eq_refl)].
Defined.

Lemma added_app evs1 evs2 : added (evs1 ++ evs2) = added evs1 ++ added evs2.
Proof. apply omap_app. Qed.

Lemma added_logs evs : Forall is_log evs -> added evs = [].
Proof.
  induction 1 as [|e evs He _ IH]; [done|].
  unfold added in *. cbn [omap list_omap]. rewrite IH. by destruct e.
Qed.

(** X18: what a direct run leaves at the published path.  A direct run
    that reaches the flush leaves there the index of this run alone: the
    roots recorded are the sorted resolved paths, whether or not a file
    was found under them, and the contents are those handed to the builder
    during the walk, in walk order; nothing of an index that was there
    before is kept, and no other file is changed.  (The index package is
    modelled: see [run_event].) *)
Theorem direct_run_result E fl args disk roots name :
  listFlag fl = false -> ~ (resetFlag fl = true /\ args = []) ->
  roots_of E args disk = Some roots -> reset_mode E fl disk = true ->
  let tr := snd (main E fl args disk) in
  EFlush name ∈ tr ->
  w_disk (run_events (start disk) tr)
  = <[index_File E := Written {| ix_paths := fst (canonicalize E roots);
                                 ix_files := added tr |}]> disk.
Proof.
  intros Hlist Hdel Hroots Hmode tr. subst tr.
  rewrite main_build, Hroots, build_trace by done.
  unfold target_file. rewrite Hmode.
  pose proof (canonicalize_events E roots) as Hcz.
  pose proof (resolve_encodings_events E (encodingsFlag fl)) as [Hen _].
  destruct (fst (resolve_encodings E (encodingsFlag fl))) as [encodings|].
  - cbv zeta.
    pose proof (walk_roots_events E encodings (fst (canonicalize E roots))) as Hwr.
    destruct (fst (walk_roots E encodings _)); cbn [snd].
    + intros Hin. exfalso. apply elem_of_app in Hin as [Hin|Hin].
      * by eapply Forall_forall in Hcz; [|exact Hin].
      * apply elem_of_cons in Hin as [[=]|Hin].
        apply elem_of_cons in Hin as [[=]|Hin].
        by eapply Forall_forall in Hwr; [|exact Hin].
    + intros _. cbn [app].
      set (walked := snd (walk_roots E encodings (fst (canonicalize E roots)))) in *.
      assert (added (snd (canonicalize E roots) ++ ECreate (index_File E)
                       :: EAddPaths (fst (canonicalize E roots))
                       :: walked ++ [ELog LogFlush; EFlush (index_File E); ELog LogDone])
              = added walked) as ->.
      { rewrite added_app, (added_logs _ Hcz).
        change (ECreate ?a :: EAddPaths ?b :: ?l) with ([ECreate a; EAddPaths b] ++ l).
        rewrite !added_app. cbn. by rewrite app_nil_r. }
      rewrite run_events_app, (run_events_logs _ _ Hcz).
      cbn [run_events foldl run_event].
      change (foldl run_event ?w (walked ++ ?l)) with (run_events w (walked ++ l)).
      rewrite run_events_app, (run_events_walk_pending _ _ Hwr).
      cbn. by rewrite insert_insert_eq.
  - cbn [snd]. intros Hin. exfalso. apply elem_of_app in Hin as [Hin|Hin].
    + by eapply Forall_forall in Hcz; [|exact Hin].
    + by eapply Forall_forall in Hen; [|exact Hin].
Qed.

Lemma direct_run_result_witness :
  w_disk (run_events (start sample_disk)
            (snd (main sample_env (flags true "") ["/src"; "/lib"] sample_disk)))
  = <[ "/home/u/.csearchindex" :=
         Written {| ix_paths := ["/lib"; "/src"];
                    ix_files := [("/src/a.txt", String.list_byte_of_string "hello")] |} ]>
      sample_disk.
Proof.
  apply (direct_run_result sample_env (flags true "") ["/src"; "/lib"] sample_disk
           ["/src"; "/lib"] "/home/u/.csearchindex").
  - reflexivity.
  - intros [_ H]. discriminate H.
  - reflexivity.
  - reflexivity.
  - apply list_elem_of_In. vm_compute. repeat first [left; reflexivity | right].
Defined.

(** ** The names of -encodings *)

Lemma strings_Split_no_sep sep s :
  Forall (λ piece, has_byte sep piece = false) (strings_Split sep s).
Proof.
  induction s as [|c s IH]; [by repeat constructor|].
  cbn [strings_Split]. case_decide as Hc; [by constructor|].
  destruct (strings_Split sep s) as [|h t].
  - repeat constructor. cbn. by rewrite bool_decide_eq_false_2.
  - apply Forall_cons in IH as [Hh Ht]. constructor; [|done].
    cbn. by rewrite bool_decide_eq_false_2.
Qed.

Lemma has_byte_trim_left c s : has_byte c (trim_left s) = true -> has_byte c s = true.
Proof.
  induction s as [|a s IH]; [done|]. cbn [trim_left].
  destruct (is_space a); [|done]. intros H%IH. cbn. rewrite H. apply orb_true_r.
Qed.

Lemma trim_right_cons a s :
  trim_right (String a s)
  = match trim_right s with
    | EmptyString => if is_space a then "" else String a ""
    | r => String a r
    end.
Proof. done. Qed.

Lemma has_byte_trim_right c s : has_byte c (trim_right s) = true -> has_byte c s = true.
Proof.
  induction s as [|a s IH]; [done|]. rewrite trim_right_cons.
  destruct (trim_right s) as [|b r] eqn:Hr.
  - destruct (is_space a); [done|]. cbn. rewrite orb_false_r. intros ->. done.
  - cbn [has_byte] in *. intros [H|H]%orb_true_iff.
    + by rewrite H.
    + rewrite (IH H). apply orb_true_r.
Qed.

Lemma first_byte_trim_left s c :
  first_byte (trim_left s) = Some c -> is_space c = false.
Proof.
  induction s as [|a s IH]; [done|]. cbn [trim_left].
  destruct (is_space a) eqn:Ha; [done|]. by intros [= <-].
Qed.

Lemma first_byte_trim_right s c :
  first_byte (trim_right s) = Some c -> first_byte s = Some c.
Proof.
  destruct s as [|a s]; [done|]. rewrite trim_right_cons.
  destruct (trim_right s); [by destruct (is_space a)|done].
Qed.

Lemma last_byte_trim_right s c :
  last_byte (trim_right s) = Some c -> is_space c = false.
Proof.
  induction s as [|a s IH]; [done|]. rewrite trim_right_cons.
  destruct (trim_right s) as [|b r] eqn:Hr.
  - destruct (is_space a) eqn:Ha; [done|]. by intros [= <-].
  - exact IH.
Qed.

(** X19: the names examined are clean.  Every name the loop of line 133
    hands to [htmlindex.Get] is non-empty, holds no comma, and neither
    begins nor ends with white space. *)
Theorem encoding_names_clean encodingsFlag :
  Forall (λ name, name ≠ ""
                  /\ has_byte "," name = false
                  /\ (forall c, first_byte name = Some c -> is_space c = false)
                  /\ (forall c, last_byte name = Some c -> is_space c = false))
    (encoding_names encodingsFlag).
Proof.
  unfold encoding_names. apply Forall_forall. intros name Hin.
  apply list_elem_of_filter in Hin as [Hne Hin].
  apply list_elem_of_fmap in Hin as (piece & -> & Hin).
  split; [done|]. split; [|split].
  - pose proof (strings_Split_no_sep "," encodingsFlag) as Hsep.
    eapply Forall_forall in Hsep; [|exact Hin].
    destruct (has_byte "," (strings_TrimSpace piece)) eqn:Hb; [|done].
    apply has_byte_trim_right, has_byte_trim_left in Hb. congruence.
  - intros c Hc. by apply first_byte_trim_right, first_byte_trim_left in Hc.
  - intros c Hc. by apply last_byte_trim_right in Hc.
Qed.

Lemma trim_left_id s :
  (forall c, first_byte s = Some c -> is_space c = false) -> trim_left s = s.
Proof.
  destruct s as [|a s]; [done|]. intros H. cbn [trim_left].
  by rewrite (H a eq_refl).
Qed.

Lemma trim_right_id s :
  (forall c, last_byte s = Some c -> is_space c = false) -> trim_right s = s.
Proof.
  induction s as [|a s IH]; [done|]. intros H. rewrite trim_right_cons.
  destruct s as [|b s].
  - cbn. by rewrite (H a eq_refl).
  - rewrite IH; [done|]. intros c Hc. by apply H.
Qed.

Lemma strings_Split_cons_piece sep piece s :
  has_byte sep piece = false ->
  strings_Split sep (piece +:+ String sep s) = piece :: strings_Split sep s.
Proof.
  induction piece as [|a piece IH]; intros Hp.
  - change ("" +:+ String sep s) with (String sep s).
    cbn [strings_Split]. by rewrite decide_True.
  - cbn [has_byte] in Hp. apply orb_false_iff in Hp as [Ha Hp].
    apply bool_decide_eq_false in Ha.
    change (String a piece +:+ String sep s) with (String a (piece +:+ String sep s)).
    cbn [strings_Split]. rewrite decide_False by done. by rewrite IH.
Qed.

Lemma strings_Split_piece sep piece :
  has_byte sep piece = false -> strings_Split sep piece = [piece].
Proof.
  induction piece as [|a piece IH]; intros Hp; [done|].
  cbn [has_byte] in Hp. apply orb_false_iff in Hp as [Ha Hp].
  apply bool_decide_eq_false in Ha.
  cbn [strings_Split]. rewrite decide_False by done. by rewrite IH.
Qed.

Lemma strings_Split_Join_pieces sep pieces :
  pieces ≠ [] -> Forall (λ piece, has_byte sep piece = false) pieces ->
  strings_Split sep (strings_Join sep pieces) = pieces.
Proof.
  intros Hne Hall. induction Hall as [|p rest Hp Hrest IH]; [done|].
  destruct rest as [|q rest].
  - by apply strings_Split_piece.
  - change (strings_Join sep (p :: q :: rest))
      with (p +:+ String sep (strings_Join sep (q :: rest))).
    rewrite strings_Split_cons_piece by done. f_equal. by apply IH.
Qed.

(** X20: a list of clean names joined with commas is read back as it
    is: same names, same order, nothing added or lost.  A clean name is
    within ASCII, not empty, holds no comma and neither begins nor ends
    with white space; within ASCII [strings.TrimSpace] trims exactly the
    six bytes of [is_space]. *)
Theorem encoding_names_Join names :
  Forall (λ name, within_ascii name = true
                  /\ name ≠ ""
                  /\ has_byte "," name = false
                  /\ (forall c, first_byte name = Some c -> is_space c = false)
                  /\ (forall c, last_byte name = Some c -> is_space c = false))
    names ->
  encoding_names (strings_Join "," names) = names.
Proof.
  intros Hall. unfold encoding_names.
  destruct names as [|n names]; [done|].
  rewrite strings_Split_Join_pieces; [|done|].
  - induction Hall as [|name rest (_ & Hne & _ & Hfirst & Hlast) _ IH]; [done|].
    cbn [fmap list_fmap]. unfold strings_TrimSpace at 1.
    rewrite (trim_left_id _ Hfirst), (trim_right_id _ Hlast).
    rewrite filter_cons_True by done. by rewrite IH.
  - eapply Forall_impl; [exact Hall|]. by intros name (_ & _ & H & _).
Qed.

Lemma encoding_names_Join_witness :
  encoding_names (strings_Join "," ["utf-8"; "iso 8859-2"]) = ["utf-8"; "iso 8859-2"].
Proof.
  apply encoding_names_Join.
  repeat constructor; try discriminate; intros c [= <-]; reflexivity.
Defined.

(** ** filepath.Split *)

(** The base name the callback tests.  [filepath.Split] cuts the
    path after its last slash: the two parts put together are the path,
    the base name holds no slash, and the directory part is empty or ends
    with a slash; a path without a slash is its own base name. *)
Lemma filepath_Split_parts path :
  fst (filepath_Split path) +:+ snd (filepath_Split path) = path
  /\ has_slash (snd (filepath_Split path)) = false
  /\ (fst (filepath_Split path) = "" <-> has_slash path = false)
  /\ (fst (filepath_Split path) ≠ "" ->
      last_byte (fst (filepath_Split path)) = Some "/"%char).
Proof.
  induction path as [|c path (IH1 & IH2 & IH3 & IH4)]; [done|].
  rewrite filepath_Split_cons. cbn [has_slash].
  destruct (filepath_Split path) as [dir elem]. cbn [fst snd] in *.
  destruct dir as [|d dir].
  - change (elem = path) in IH1. subst elem.
    rewrite IH2, orb_false_r. case_decide as Hc; cbn [fst snd].
    + subst c. repeat split; try done.
    + rewrite bool_decide_eq_false_2 by done.
      cbn [has_slash]. rewrite IH2, bool_decide_eq_false_2 by done.
      repeat split; try done.
  - cbn [fst snd].
    assert (has_slash path = true) as Hp.
    { destruct (has_slash path); [done|]. by destruct IH3 as [_ IH3]; specialize (IH3 eq_refl). }
    rewrite Hp, orb_true_r.
    change (String c (String d dir) +:+ elem) with (String c (String d dir +:+ elem)).
    rewrite IH1. repeat split; try done.
    intros _. specialize (IH4 ltac:(done)). exact IH4.
Qed.

(** ** The files a run touches *)

Lemma main_targets E fl args disk :
  let master := index_File E in
  Forall (λ e, forall name, name ∈ targets e ->
                 name ∈ [master; master +:+ "~"; (master +:+ "~") +:+ "~"])
    (snd (main E fl args disk)).
Proof.
  intros master.
  assert (forall evs, Forall walk_event evs ->
            Forall (λ e, forall name, name ∈ targets e ->
                      name ∈ [master; master +:+ "~"; (master +:+ "~") +:+ "~"]) evs)
    as Hwalk.
  { intros evs Hevs. eapply Forall_impl; [exact Hevs|].
    intros e He name Hin. by apply (walk_event_targets e name) in He. }
  destruct (listFlag fl) eqn:Hlist.
  { eapply Forall_impl; [by apply main_list|].
    intros e He name Hin. by apply (is_print_targets e name) in He. }
  destruct (decide (resetFlag fl = true /\ args = [])) as [[Hr Ha]|Hdel].
  { unfold main. rewrite Hlist, Hr, Ha. cbn.
    apply Forall_cons_2; [|apply Forall_nil_2].
    intros name ->%list_elem_of_singleton. by left. }
  rewrite main_build by done.
  destruct (roots_of E args disk) as [roots|]; [|apply Forall_nil_2].
  destruct (reset_mode E fl disk) eqn:Hmode.
  - destruct (build_direct E fl disk roots Hmode) as [Hall _].
    eapply Forall_impl; [exact Hall|].
    intros e [He|[->|[[paths ->]| ->]]] name Hin.
    + by apply (walk_event_targets e name) in He.
    + apply list_elem_of_singleton in Hin as ->. by left.
    + by apply elem_of_nil in Hin.
    + apply list_elem_of_singleton in Hin as ->. by left.
  - assert (forall evs, Forall (staging_event (master +:+ "~")) evs ->
              Forall (λ e, forall name, name ∈ targets e ->
                        name ∈ [master; master +:+ "~"; (master +:+ "~") +:+ "~"]) evs)
      as Hstaging.
    { intros evs Hevs. eapply Forall_impl; [exact Hevs|].
      intros e [He|[->|[paths ->]]] name Hin.
      - by apply (walk_event_targets e name) in He.
      - apply list_elem_of_singleton in Hin as ->. right. by left.
      - by apply elem_of_nil in Hin. }
    destruct (build_incremental E fl disk roots Hmode) as [H|(pre & Hpre & ->)].
    + by apply Hstaging.
    + apply Forall_app. split; [by apply Hstaging|].
      unfold flush_and_publish, publish_events. fold master.
      repeat apply Forall_cons_2; try apply Forall_nil_2; cbn [targets];
        intros name Hin;
        repeat match goal with
               | H : _ ∈ _ :: _ |- _ => apply elem_of_cons in H as [->|H]
               | H : _ ∈ [] |- _ => by apply elem_of_nil in H
               end;
        apply list_elem_of_In; cbn; auto.
Qed.

Lemma run_pevent_frame w e name :
  name ∉ ptargets e -> w_disk (run_pevent w e) !! name = w_disk w !! name.
Proof.
  destruct e; simpl; intros Hn; try done.
  - apply lookup_insert_ne. set_solver.
  - by apply run_event_frame.
Qed.

Lemma run_pevents_frame w evs name :
  Forall (λ e, name ∉ ptargets e) evs ->
  w_disk (run_pevents w evs) !! name = w_disk w !! name.
Proof.
  intros H. revert w. induction H as [|e evs He Hevs IH]; intros w; [done|].
  simpl. rewrite IH. by apply run_pevent_frame.
Qed.

(** The files a whole run can create, change or delete. *)
Lemma cindex_targets E P fl args disk :
  let master := index_File E in
  Forall (λ e, forall name, name ∈ ptargets e ->
                 name ∈ [master; master +:+ "~"; (master +:+ "~") +:+ "~"]
                 \/ (cpuProfile P ≠ "" /\ name = cpuProfile P))
    (snd (cindex E P fl args disk)).
Proof.
  intros master.
  assert (forall disk', Forall (λ e, forall name, name ∈ ptargets e ->
                 name ∈ [master; master +:+ "~"; (master +:+ "~") +:+ "~"]
                 \/ (cpuProfile P ≠ "" /\ name = cpuProfile P))
            (PMain <$> snd (main E fl args disk'))) as Hmain.
  { intros disk'. apply Forall_fmap.
    eapply Forall_impl; [apply (main_targets E fl args disk')|].
    intros e He name Hin. left. by apply He. }
  unfold cindex.
  destruct (listFlag fl || bool_decide (cpuProfile P = "")) eqn:Hcase; [apply Hmain|].
  apply orb_false_iff in Hcase as [_ Hp]. apply bool_decide_eq_false in Hp.
  destruct (os_Create P (cpuProfile P)) as [err|]; cbn [snd].
  - apply Forall_cons_2; [|apply Forall_nil_2].
    intros name Hin. by apply elem_of_nil in Hin.
  - apply Forall_cons_2.
    { intros name ->%list_elem_of_singleton. by right. }
    apply Forall_cons_2.
    { intros name Hin. by apply elem_of_nil in Hin. }
    apply Forall_app. split; [apply Hmain|].
    destruct (fst (main E fl args _));
      repeat apply Forall_cons_2; try apply Forall_nil_2;
      intros name Hin; by apply elem_of_nil in Hin.
Qed.

(** X21: the only files a run creates, changes or removes are the
    published index, the staging file (published path plus [~]), the
    merged file (published path plus [~~]) and, with -cpuprofile, the file
    that flag names.  At every point of every run, whatever the flags and
    arguments, every other file of the disk is as it was at the start. *)
Theorem only_index_files_touched E P fl args disk pre suf name :
  snd (cindex E P fl args disk) = pre ++ suf ->
  name ≠ index_File E -> name ≠ index_File E +:+ "~" ->
  name ≠ (index_File E +:+ "~") +:+ "~" ->
  (cpuProfile P ≠ "" -> name ≠ cpuProfile P) ->
  w_disk (run_pevents (start disk) pre) !! name = disk !! name.
Proof.
  intros Htr H1 H2 H3 H4.
  pose proof (cindex_targets E P fl args disk) as Hall. cbv zeta in Hall.
  rewrite Htr in Hall. apply Forall_app in Hall as [Hall _].
  rewrite run_pevents_frame; [done|].
  eapply Forall_impl; [exact Hall|]. intros e He Hin.
  apply He in Hin as [Hin|[Hp ->]]; [|by apply H4].
  repeat match goal with
         | H : _ ∈ _ :: _ |- _ => apply elem_of_cons in H as [->|H]
         | H : _ ∈ [] |- _ => by apply elem_of_nil in H
         end; done.
Qed.

Lemma only_index_files_touched_witness :
  let disk : gmap string file_state :=
    <[ "/home/u/notes" := Written old_index ]> sample_disk in
  w_disk (run_pevents (start disk)
            (snd (cindex sample_env profile_ok (flags false "") ["/src"] disk)))
    !! "/home/u/notes" = Some (Written old_index).
Proof.
  intros disk.
  rewrite (only_index_files_touched sample_env profile_ok (flags false "") ["/src"] disk
             (snd (cindex sample_env profile_ok (flags false "") ["/src"] disk)) []);
    [reflexivity | by rewrite app_nil_r | discriminate ..].
Defined.

(** ** The result of an incremental run *)

(** X22: what an incremental run leaves on disk.  With a complete
    published index and no -reset, a run that reaches the flush leaves at
    the published path the merge of the old index with the index of this
    run, whose roots are the sorted resolved paths and whose contents are
    those handed to the builder during the walk; the staging file and the
    merged file are gone, also when they were there before the run; every
    other file is as it was.  (The index package is modelled: see
    [run_event] and [merge_index].) *)
Theorem incremental_run_result E fl args disk roots oldix name :
  listFlag fl = false -> resetFlag fl = false ->
  roots_of E args disk = Some roots ->
  disk !! index_File E = Some (Written oldix) ->
  let master := index_File E in
  let tr := snd (main E fl args disk) in
  EFlush name ∈ tr ->
  w_disk (run_events (start disk) tr)
  = <[master := Written (merge_index oldix
                           {| ix_paths := fst (canonicalize E roots);
                              ix_files := added tr |})]>
      (delete ((master +:+ "~") +:+ "~") (delete (master +:+ "~") disk)).
Proof.
  intros Hlist Hreset Hroots Hold master tr. subst tr.
  assert (reset_mode E fl disk = false) as Hmode.
  { unfold reset_mode. by rewrite Hold. }
  rewrite main_build, Hroots, build_trace; [|done|intros [? _]; congruence].
  unfold target_file. rewrite Hmode. fold master. fold master in Hold.
  pose proof (canonicalize_events E roots) as Hcz.
  pose proof (resolve_encodings_events E (encodingsFlag fl)) as [Hen _].
  destruct (index_names_distinct master) as (Hn1 & Hn2 & Hn3).
  destruct (fst (resolve_encodings E (encodingsFlag fl))) as [encodings|].
  - cbv zeta.
    pose proof (walk_roots_events E encodings (fst (canonicalize E roots))) as Hwr.
    destruct (fst (walk_roots E encodings _)); cbn [snd].
    + intros Hin. exfalso. apply elem_of_app in Hin as [Hin|Hin].
      * by eapply Forall_forall in Hcz; [|exact Hin].
      * apply elem_of_cons in Hin as [[=]|Hin].
        apply elem_of_cons in Hin as [[=]|Hin].
        by eapply Forall_forall in Hwr; [|exact Hin].
    + intros _. unfold publish_events. cbn [app].
      set (walked := snd (walk_roots E encodings (fst (canonicalize E roots)))) in *.
      set (staging := master +:+ "~") in *.
      set (merged := staging +:+ "~") in *.
      assert (added (snd (canonicalize E roots) ++ ECreate staging
                       :: EAddPaths (fst (canonicalize E roots))
                       :: walked ++ [ELog LogFlush; EFlush staging;
                                     ELog (LogMerge master staging);
                                     EMerge merged master staging; ERemove staging;
                                     ERename merged master; ELog LogDone])
              = added walked) as ->.
      { rewrite added_app, (added_logs _ Hcz).
        change (ECreate ?a :: EAddPaths ?b :: ?l) with ([ECreate a; EAddPaths b] ++ l).
        rewrite !added_app. cbn. by rewrite app_nil_r. }
      rewrite run_events_app, (run_events_logs _ _ Hcz).
      cbn [run_events foldl run_event].
      change (foldl run_event ?w (walked ++ ?l)) with (run_events w (walked ++ l)).
      rewrite run_events_app, (run_events_walk_pending _ _ Hwr).
      cbn [run_events foldl run_event w_disk w_pending start empty_index
             ix_paths ix_files app].
      rewrite insert_insert_eq.
      rewrite (lookup_insert_ne _ staging master) by done.
      rewrite Hold, lookup_insert_eq. cbn [w_disk w_pending].
      rewrite lookup_delete_ne by done. rewrite lookup_insert_eq.
      cbn [w_disk w_pending].
      apply map_eq. intros k.
      destruct (decide (k = master)) as [->|Hk1].
      { by rewrite !lookup_insert_eq. }
      rewrite !(lookup_insert_ne _ master k) by done.
      destruct (decide (k = merged)) as [->|Hk2].
      { by rewrite !lookup_delete_eq. }
      rewrite !(lookup_delete_ne _ merged k) by done.
      destruct (decide (k = staging)) as [->|Hk3].
      { by rewrite !lookup_delete_eq. }
      rewrite !(lookup_delete_ne _ staging k) by done.
      rewrite lookup_insert_ne by done. by rewrite lookup_insert_ne by done.
  - cbn [snd]. intros Hin. exfalso. apply elem_of_app in Hin as [Hin|Hin].
    + by eapply Forall_forall in Hcz; [|exact Hin].
    + by eapply Forall_forall in Hen; [|exact Hin].
Qed.

Lemma incremental_run_result_witness :
  w_disk (run_events (start sample_disk)
            (snd (main sample_env (flags false "") ["/src"] sample_disk)))
    !! "/home/u/.csearchindex"
  = Some (Written
            {| ix_paths := ["/old"; "/src"];
               ix_files := [("/src/a.txt", String.list_byte_of_string "hello");
                            ("/old/x", [Byte.x6f])] |}).
Proof.
  rewrite (incremental_run_result sample_env (flags false "") ["/src"] sample_disk
             ["/src"] old_index "/home/u/.csearchindex~").
  - reflexivity.
  - reflexivity.
  - reflexivity.
  - reflexivity.
  - reflexivity.
  - apply list_elem_of_In. vm_compute. repeat first [left; reflexivity | right].
Defined.
